(** * Bounded blocking queue (BBQ) and its driver

    A shallow embedding of [src/BBQ.cpp] and [src/main.cpp].

    - [Module BBQ]: the queue object and what one call does while it holds
      [m_mutex] ([BBQ::BBQ], [BBQ::insert], [BBQ::remove]).
    - [Module Monitor]: threads calling the queue concurrently; the mutex and
      the two condition variables [m_itemAdded] and [m_itemRemoved].
    - [Module Driver]: [main], [producerTask] and [consumerTask].

    The header [BBQ.h] is not part of the sources.  What it declares is taken
    as follows: the constant [MAX] is a variable of the development (with
    [0 < MAX]); the members are [int m_items[MAX]], [m_head], [m_tail]; the
    wait predicates [canInsert] and [canRemove] are modelled from the
    specification. *)

From Stdlib Require Import ZArith Lia Bool String Ascii.
From stdpp Require Import base option list.

Local Open Scope Z_scope.

(** ** C++ primitives shared by the queue and the driver *)

(** [a % b] on [int]: truncated remainder, undefined for [b = 0]
    ([None] stands for undefined behaviour). *)
Definition c_rem (a b : Z) : option Z :=
  if b =? 0 then None else Some (Z.rem a b).

(** The value of [z] as a 32-bit [int]: the representative of [z] modulo
    [2^32] in [-2^31, 2^31). *)
Definition to_int (z : Z) : Z := (z + 2 ^ 31) mod 2 ^ 32 - 2 ^ 31.

(** [a + b] on [int], with the wrap-around of two's complement targets on
    overflow. *)
Definition int_add (a b : Z) : Z := to_int (a + b).

Lemma to_int_range z : - 2 ^ 31 <= to_int z < 2 ^ 31.
Proof. unfold to_int. pose proof (Z.mod_pos_bound (z + 2 ^ 31) (2 ^ 32)). lia. Qed.

Lemma to_int_small z : - 2 ^ 31 <= z < 2 ^ 31 -> to_int z = z.
Proof. intros H. unfold to_int. rewrite Z.mod_small; lia. Qed.

Lemma c_rem_nonneg (a b : Z) :
  0 <= a -> 0 < b -> c_rem a b = Some (a mod b).
Proof.
  intros Ha Hb. unfold c_rem.
  destruct (Z.eqb_spec b 0) as [->|_]; [lia|].
  f_equal. apply Z.rem_mod_nonneg; lia.
Qed.

Module BBQ.

(** An [int] array cell holds a value once it has been written; the
    constructor leaves [m_items] uninitialised ([None]). *)
Abbreviation cell := (option Z).

(** Modelled from the spec: the members of [class BBQ] are declared in the
    absent [BBQ.h].  [m_items] is the buffer indexed in [BBQ.cpp]; [m_head]
    and [m_tail] are the "monotonically non-decreasing" counters of the
    data model: the code only ever increments them, and they are kept
    unbounded here (no wrap-around). *)
Record BBQ : Type := mkBBQ {
  m_items : list cell;
  m_head : Z;
  m_tail : Z
}.

(** [a[i] = v]: a write outside the array is undefined. *)
Definition array_set (a : list cell) (i v : Z) : option (list cell) :=
  if (0 <=? i) && (i <? Z.of_nat (length a))
  then Some (<[Z.to_nat i := Some v]> a)
  else None.

(** [a[i]] as an rvalue: undefined outside the array and for a cell that was
    never written. *)
Definition array_get (a : list cell) (i : Z) : option Z :=
  if 0 <=? i then
    match a !! Z.to_nat i with
    | Some (Some v) => Some v
    | _ => None
    end
  else None.

(** What a call does once it owns the mutex and evaluates the predicate of
    [wait]: it completes with a result and a new queue, or it has to wait on
    the condition variable, or it runs into undefined behaviour. *)
Inductive attempt (A : Type) : Type :=
| Done (r : A) (q : BBQ)
| Wait
| Fault.
Arguments Done {A} r q.
Arguments Wait {A}.
Arguments Fault {A}.

Section WithMAX.

Variable MAX : Z.

(** [BBQ::BBQ(): m_head(0), m_tail(0) {}] *)
Definition BBQ_new : BBQ :=
  {| m_items := replicate (Z.to_nat MAX) None; m_head := 0; m_tail := 0 |}.

(** Number of live elements. *)
Definition count (q : BBQ) : Z := m_tail q - m_head q.

(** Modelled from the spec: [BBQ::canInsert] is declared in the absent
    [BBQ.h]; insert proceeds "once count < capacity". *)
Definition canInsert (q : BBQ) : bool := count q <? MAX.

(** Modelled from the spec: [BBQ::canRemove] is declared in the absent
    [BBQ.h]; remove proceeds "once count > 0". *)
Definition canRemove (q : BBQ) : bool := 0 <? count q.

(** [m_items[m_tail % MAX] = item;] *)
Definition put_item (item : Z) (q : BBQ) : option BBQ :=
  i ← c_rem (m_tail q) MAX;
  a ← array_set (m_items q) i item;
  Some {| m_items := a; m_head := m_head q; m_tail := m_tail q |}.

(** [m_tail++;] *)
Definition inc_tail (q : BBQ) : BBQ :=
  {| m_items := m_items q; m_head := m_head q; m_tail := m_tail q + 1 |}.

(** [int item = m_items[m_head % MAX];] *)
Definition get_item (q : BBQ) : option Z :=
  i ← c_rem (m_head q) MAX;
  array_get (m_items q) i.

(** [m_head++;] *)
Definition inc_head (q : BBQ) : BBQ :=
  {| m_items := m_items q; m_head := m_head q + 1; m_tail := m_tail q |}.

(** Lines 13-14 of [BBQ::insert], after [wait] has returned. *)
Definition insert_body (item : Z) (q : BBQ) : option BBQ :=
  q1 ← put_item item q;
  Some (inc_tail q1).

(** Lines 22-23 and 25 of [BBQ::remove], after [wait] has returned. *)
Definition remove_body (q : BBQ) : option (Z * BBQ) :=
  item ← get_item q;
  Some (item, inc_head q).

(** [BBQ::insert] from the moment it holds the mutex, up to (not including)
    [notify_one], which acts on the waiting threads (see [Monitor]). *)
Definition insert (item : Z) (q : BBQ) : attempt unit :=
  if canInsert q then
    match insert_body item q with
    | Some q' => Done tt q'
    | None => Fault
    end
  else Wait.

(** [BBQ::remove], likewise. *)
Definition remove (q : BBQ) : attempt Z :=
  if canRemove q then
    match remove_body q with
    | Some (item, q') => Done item q'
    | None => Fault
    end
  else Wait.

(** *** Abstraction: the queue as a list, oldest element first *)

Definition slot (k : Z) : nat := Z.to_nat (k mod MAX).

(** The [k]-th live element, read from the ring. *)
Definition peek (q : BBQ) (k : nat) : option Z :=
  array_get (m_items q) ((m_head q + Z.of_nat k) mod MAX).

Definition contents (q : BBQ) : list (option Z) :=
  peek q <$> seq 0 (Z.to_nat (count q)).

(** [Rep q l]: the queue [q] holds exactly the items [l]. *)
Definition Rep (q : BBQ) (l : list Z) : Prop :=
  0 <= m_head q /\
  m_tail q = m_head q + Z.of_nat (length l) /\
  Z.of_nat (length l) <= MAX /\
  Z.of_nat (length (m_items q)) = MAX /\
  forall (k : nat) (x : Z), l !! k = Some x ->
    m_items q !! slot (m_head q + Z.of_nat k) = Some (Some x).

(** Successive inserts by one caller; [None] as soon as one of them does not
    complete. *)
Fixpoint inserts (items : list Z) (q : BBQ) : option BBQ :=
  match items with
  | [] => Some q
  | x :: items' =>
      match insert x q with
      | Done _ q' => inserts items' q'
      | _ => None
      end
  end.

Hypothesis MAX_pos : 0 < MAX.

Lemma Rep_new : Rep BBQ_new [].
Proof.
  unfold Rep, BBQ_new; simpl. rewrite length_replicate.
  repeat split; try lia. intros k x Hk. discriminate.
Qed.

Lemma Rep_count q l : Rep q l -> count q = Z.of_nat (length l).
Proof. intros (_ & Ht & _). unfold count. lia. Qed.

Lemma Rep_bounds q l : Rep q l -> 0 <= count q <= MAX.
Proof. intros H. rewrite (Rep_count q l H). destruct H as (_ & _ & ? & _). lia. Qed.

Lemma slot_lt k : Z.of_nat (slot k) < MAX.
Proof.
  unfold slot. pose proof (Z.mod_pos_bound k MAX MAX_pos). lia.
Qed.

Lemma slot_inj h j k :
  0 <= j < MAX -> 0 <= k < MAX -> slot (h + j) = slot (h + k) -> j = k.
Proof.
  unfold slot. intros Hj Hk E.
  pose proof (Z.mod_pos_bound (h + j) MAX MAX_pos).
  pose proof (Z.mod_pos_bound (h + k) MAX MAX_pos).
  assert (E' : (h + j) mod MAX = (h + k) mod MAX) by lia.
  clear E.
  assert (Hjk : j - k = MAX * ((h + j) / MAX - (h + k) / MAX)).
  { pose proof (Z.div_mod (h + j) MAX). pose proof (Z.div_mod (h + k) MAX). lia. }
  set (d := (h + j) / MAX - (h + k) / MAX) in Hjk.
  assert (d = 0) by nia.
  subst d. lia.
Qed.

(** On a represented queue the index [counter % MAX] computed by the code is
    the slot of the abstraction. *)
Lemma c_rem_slot k : 0 <= k -> c_rem k MAX = Some (Z.of_nat (slot k)).
Proof.
  intros Hk. rewrite c_rem_nonneg by lia. unfold slot.
  pose proof (Z.mod_pos_bound k MAX MAX_pos). f_equal. lia.
Qed.

Lemma canInsert_Rep q l :
  Rep q l -> canInsert q = bool_decide (Z.of_nat (length l) < MAX).
Proof.
  intros H. unfold canInsert. rewrite (Rep_count q l H).
  case_bool_decide; [apply Z.ltb_lt | apply Z.ltb_ge]; lia.
Qed.

Lemma canRemove_Rep q l :
  Rep q l -> canRemove q = bool_decide (l <> []).
Proof.
  intros H. unfold canRemove. rewrite (Rep_count q l H).
  destruct l as [|x l].
  - rewrite bool_decide_eq_false_2 by auto. reflexivity.
  - rewrite bool_decide_eq_true_2 by discriminate. apply Z.ltb_lt.
    rewrite length_cons. lia.
Qed.

(** The write of line 13 goes to the slot of the current [m_tail]. *)
Lemma put_item_Rep q l item :
  Rep q l ->
  put_item item q =
    Some {| m_items := <[slot (m_tail q) := Some item]> (m_items q);
            m_head := m_head q; m_tail := m_tail q |}.
Proof.
  intros (Hh & Ht & Hl & Hlen & Hget).
  pose proof (slot_lt (m_tail q)) as Hs.
  unfold put_item. rewrite c_rem_slot by lia. simpl.
  unfold array_set.
  replace (0 <=? Z.of_nat (slot (m_tail q))) with true
    by (symmetry; apply Z.leb_le; lia).
  replace (Z.of_nat (slot (m_tail q)) <? Z.of_nat (length (m_items q))) with true
    by (symmetry; apply Z.ltb_lt; lia).
  simpl. rewrite Nat2Z.id. reflexivity.
Qed.

(** The read of line 22 returns the oldest item. *)
Lemma get_item_Rep q x l :
  Rep q (x :: l) ->
  get_item q = Some x /\ m_items q !! slot (m_head q) = Some (Some x).
Proof.
  intros (Hh & Ht & Hl & Hlen & Hget).
  pose proof (slot_lt (m_head q)) as Hs.
  specialize (Hget 0%nat x eq_refl). simpl in Hget.
  rewrite Z.add_0_r in Hget. split; [|exact Hget].
  unfold get_item. rewrite c_rem_slot by lia. simpl.
  unfold array_get.
  replace (0 <=? Z.of_nat (slot (m_head q))) with true
    by (symmetry; apply Z.leb_le; lia).
  rewrite Nat2Z.id, Hget. reflexivity.
Qed.

(** The body of [insert] on a queue that is not full: it writes the slot
    [m_tail % MAX], increments [m_tail] and leaves [m_head] alone; the queue
    then holds the old items followed by the new one. *)
Lemma insert_body_Rep q l item :
  Rep q l -> Z.of_nat (length l) < MAX ->
  insert_body item q =
    Some {| m_items := <[slot (m_tail q) := Some item]> (m_items q);
            m_head := m_head q; m_tail := m_tail q + 1 |} /\
  Rep {| m_items := <[slot (m_tail q) := Some item]> (m_items q);
         m_head := m_head q; m_tail := m_tail q + 1 |} (l ++ [item]).
Proof.
  intros HR Hlt. split.
  - unfold insert_body. rewrite (put_item_Rep q l item HR). reflexivity.
  - destruct HR as (Hh & Ht & Hl & Hlen & Hget).
    pose proof (slot_lt (m_tail q)) as Hs.
    unfold Rep; simpl. rewrite length_app, length_insert. simpl.
    repeat split; try lia.
    intros k x Hk.
    pose proof (lookup_lt_Some _ _ _ Hk) as Hk'.
    rewrite length_app in Hk'. simpl in Hk'.
    destruct (decide (k = length l)) as [->|Hne].
    + rewrite lookup_app_r in Hk by lia.
      rewrite Nat.sub_diag in Hk. simpl in Hk. injection Hk as <-.
      rewrite Ht in Hs |- *. apply list_lookup_insert_eq. lia.
    + rewrite lookup_app_l in Hk by lia.
      rewrite list_lookup_insert_ne; [eauto|].
      rewrite Ht. intros E. apply slot_inj in E; lia.
Qed.

(** The body of [remove] on a queue that is not empty: it reads the slot
    [m_head % MAX], increments [m_head] and returns the oldest item. *)
Lemma remove_body_Rep q x l :
  Rep q (x :: l) ->
  remove_body q = Some (x, inc_head q) /\ Rep (inc_head q) l.
Proof.
  intros HR. split.
  - unfold remove_body. rewrite (proj1 (get_item_Rep q x l HR)). reflexivity.
  - destruct HR as (Hh & Ht & Hl & Hlen & Hget). simpl in *.
    unfold Rep, inc_head; simpl. repeat split; try lia.
    intros k y Hk. specialize (Hget (S k) y Hk).
    replace (m_head q + 1 + Z.of_nat k) with (m_head q + Z.of_nat (S k)) by lia.
    exact Hget.
Qed.

Lemma insert_Rep q l item :
  Rep q l -> Z.of_nat (length l) < MAX ->
  exists q', insert item q = Done tt q' /\ Rep q' (l ++ [item]).
Proof.
  intros H Hlt. destruct (insert_body_Rep q l item H Hlt) as [E R].
  eexists. split; [|exact R].
  unfold insert. rewrite (canInsert_Rep q l H), bool_decide_eq_true_2 by lia.
  rewrite E. reflexivity.
Qed.

Lemma insert_full q l item :
  Rep q l -> Z.of_nat (length l) = MAX -> insert item q = Wait.
Proof.
  intros H Hl. unfold insert.
  rewrite (canInsert_Rep q l H), bool_decide_eq_false_2 by lia. reflexivity.
Qed.

Lemma remove_Rep q x l :
  Rep q (x :: l) -> remove q = Done x (inc_head q) /\ Rep (inc_head q) l.
Proof.
  intros H. destruct (remove_body_Rep q x l H) as [E R].
  split; [|exact R].
  unfold remove. rewrite (canRemove_Rep q _ H), bool_decide_eq_true_2 by discriminate.
  rewrite E. reflexivity.
Qed.

Lemma remove_empty q : Rep q [] -> remove q = Wait.
Proof.
  intros H. unfold remove.
  rewrite (canRemove_Rep q _ H), bool_decide_eq_false_2 by auto. reflexivity.
Qed.

(** The executable reading of the ring agrees with the abstraction. *)
Lemma Rep_contents q l : Rep q l -> contents q = Some <$> l.
Proof.
  intros H. pose proof (Rep_count q l H) as Hc.
  destruct H as (Hh & Ht & Hl & Hlen & Hget).
  unfold contents. rewrite Hc, Nat2Z.id.
  apply list_eq. intros k.
  rewrite !list_lookup_fmap.
  destruct (l !! k) as [x|] eqn:Hk; simpl.
  - rewrite lookup_seq_lt by (eapply lookup_lt_Some; eauto). simpl.
    f_equal. unfold peek, array_get.
    pose proof (Z.mod_pos_bound (m_head q + Z.of_nat k) MAX MAX_pos).
    replace (0 <=? _) with true by (symmetry; apply Z.leb_le; lia).
    specialize (Hget k x Hk). unfold slot in Hget. rewrite Hget. reflexivity.
  - rewrite lookup_seq_ge by (eapply lookup_ge_None; eauto). reflexivity.
Qed.

(** A queue holds one list of items only. *)
Lemma Rep_functional q l1 l2 : Rep q l1 -> Rep q l2 -> l1 = l2.
Proof.
  intros H1 H2. apply (inj (fmap Some)).
  rewrite <- (Rep_contents _ _ H1). apply (Rep_contents _ _ H2).
Qed.

Lemma inserts_Rep items :
  forall q l,
    Rep q l -> Z.of_nat (length l + length items) <= MAX ->
    exists q', inserts items q = Some q' /\ Rep q' (l ++ items).
Proof.
  induction items as [|x items IH]; intros q l HR Hlen; simpl.
  - exists q. rewrite app_nil_r. auto.
  - simpl in Hlen.
    destruct (insert_Rep q l x HR) as (q1 & E & R1); [lia|].
    rewrite E.
    destruct (IH q1 (l ++ [x]) R1) as (q' & E' & R').
    + rewrite length_app. simpl. lia.
    + exists q'. rewrite <- app_assoc in R'. auto.
Qed.

(** On a represented queue insert waits exactly when the queue holds [MAX]
    items. *)
Lemma insert_Wait_iff q l y : Rep q l -> insert y q = Wait <-> count q = MAX.
Proof.
  intros HR. rewrite (Rep_count q l HR). split.
  - intros HW.
    destruct (decide (Z.of_nat (length l) < MAX)) as [Hlt|Hge].
    + destruct (insert_Rep q l y HR Hlt) as (q' & E & _). congruence.
    + destruct HR as (_ & _ & ? & _). lia.
  - intros Hfull. apply (insert_full q l y HR Hfull).
Qed.

(** *** One caller: filling and draining *)

(** [k] successive removes by one caller, with the items returned; [None] as
    soon as one of them does not complete. *)
Fixpoint removes (k : nat) (q : BBQ) : option (list Z * BBQ) :=
  match k with
  | O => Some ([], q)
  | S k' =>
      match remove q with
      | Done x q' =>
          match removes k' q' with
          | Some (xs, q'') => Some (x :: xs, q'')
          | None => None
          end
      | _ => None
      end
  end.

(** A completed insert has written one cell and incremented [m_tail]. *)
Lemma insert_Done_inv q l x r q' :
  Rep q l -> insert x q = Done r q' ->
  q' = {| m_items := <[slot (m_tail q) := Some x]> (m_items q);
          m_head := m_head q; m_tail := m_tail q + 1 |}.
Proof.
  intros HR H.
  destruct (decide (Z.of_nat (length l) < MAX)) as [Hlt|Hge].
  - destruct (insert_body_Rep q l x HR Hlt) as [E _].
    unfold insert in H. rewrite E in H.
    destruct (canInsert q); [|discriminate]. congruence.
  - rewrite (insert_full q l x HR) in H; [discriminate|].
    destruct HR as (_ & _ & ? & _). lia.
Qed.

(** A completed remove has incremented [m_head] and left the buffer alone. *)
Lemma remove_Done_inv q l x q' :
  Rep q l -> remove q = Done x q' -> q' = inc_head q.
Proof.
  intros HR H. destruct l as [|y l].
  - rewrite (remove_empty q HR) in H. discriminate.
  - rewrite (proj1 (remove_Rep q y l HR)) in H. congruence.
Qed.

Lemma removes_Rep l :
  forall q, Rep q l ->
    exists q', removes (length l) q = Some (l, q') /\ Rep q' [].
Proof.
  induction l as [|x l IH]; intros q HR; simpl.
  - eauto.
  - destruct (remove_Rep q x l HR) as [E R]. rewrite E.
    destruct (IH _ R) as (q' & E' & R'). rewrite E'. eauto.
Qed.

(** X3 (fill and drain by one caller): on a queue holding [l], a caller can
    insert any [items] that fit without waiting, whatever the position of
    [m_head] in the ring; removing as many items as the queue then holds
    returns [l] followed by [items], in this order, and leaves a queue on
    which remove has to wait. *)
Theorem fill_then_drain q l items :
  Rep q l -> Z.of_nat (length l + length items) <= MAX ->
  exists q1 q2,
    inserts items q = Some q1 /\
    removes (length l + length items) q1 = Some (l ++ items, q2) /\
    contents q2 = [] /\
    remove q2 = Wait.
Proof.
  intros HR Hlen.
  destruct (inserts_Rep items q l HR Hlen) as (q1 & E1 & R1).
  destruct (removes_Rep (l ++ items) q1 R1) as (q2 & E2 & R2).
  rewrite length_app in E2.
  exists q1, q2. split; [exact E1|]. split; [exact E2|].
  split; [apply (Rep_contents q2 [] R2) | apply (remove_empty q2 R2)].
Qed.

(** X9 (insert never overwrites a live item): when insert completes on a
    queue holding [l], the cell it wrote is none of the cells of the items
    of [l], each of these cells still holds its item, the buffer has kept
    its size, and [m_head] is unchanged. *)
Theorem insert_keeps_live_items q l y r q' :
  Rep q l -> insert y q = Done r q' ->
  length (m_items q') = length (m_items q) /\
  m_head q' = m_head q /\
  m_items q' !! slot (m_tail q) = Some (Some y) /\
  forall (k : nat) (x : Z), l !! k = Some x ->
    slot (m_head q + Z.of_nat k) <> slot (m_tail q) /\
    m_items q' !! slot (m_head q + Z.of_nat k) = Some (Some x).
Proof.
  intros HR H. rewrite (insert_Done_inv q l y r q' HR H). simpl.
  assert (Hlt : Z.of_nat (length l) < MAX).
  { destruct (decide (Z.of_nat (length l) < MAX)) as [?|Hge]; [assumption|].
    rewrite (insert_full q l y HR) in H; [discriminate|].
    destruct HR as (_ & _ & ? & _). lia. }
  destruct HR as (Hh & Ht & Hl & Hlen & Hget).
  pose proof (slot_lt (m_tail q)) as Hs.
  split; [apply length_insert|]. split; [reflexivity|].
  split; [apply list_lookup_insert_eq; lia|].
  intros k x Hk. pose proof (lookup_lt_Some _ _ _ Hk) as Hkl.
  assert (Hne : slot (m_head q + Z.of_nat k) <> slot (m_tail q)).
  { rewrite Ht. intros E. apply slot_inj in E; lia. }
  split; [exact Hne|].
  rewrite list_lookup_insert_ne by congruence. apply (Hget k x Hk).
Qed.

End WithMAX.

(** A queue of capacity 3 whose ring has wrapped: it holds 5 in cell 2. *)
Definition wrapped : BBQ :=
  {| m_items := [Some 1; Some 2; Some 5]; m_head := 2; m_tail := 3 |}.

Lemma wrapped_Rep : Rep 3 wrapped [5].
Proof.
  unfold Rep; simpl. repeat split; try lia.
  intros [|k] x Hk; simpl in Hk; [|discriminate].
  injection Hk as <-. reflexivity.
Qed.

Lemma insert_keeps_live_items_witness :
  0 < 3 /\ Rep 3 wrapped [5] /\
  insert 3 6 wrapped =
    Done tt {| m_items := [Some 6; Some 2; Some 5]; m_head := 2; m_tail := 4 |} /\
  forall (k : nat) (x : Z), [5] !! k = Some x ->
    slot 3 (m_head wrapped + Z.of_nat k) <> slot 3 (m_tail wrapped) /\
    [Some 6; Some 2; Some 5] !! slot 3 (m_head wrapped + Z.of_nat k) = Some (Some x).
Proof.
  split; [lia|]. split; [exact wrapped_Rep|]. split; [reflexivity|].
  apply (insert_keeps_live_items 3 ltac:(lia) wrapped [5] 6 tt
           {| m_items := [Some 6; Some 2; Some 5]; m_head := 2; m_tail := 4 |}
           wrapped_Rep eq_refl).
Defined.

Lemma fill_then_drain_witness :
  0 < 3 /\ Rep 3 wrapped [5] /\
  exists q1 q2,
    inserts 3 [6; 7] wrapped = Some q1 /\
    removes 3 3 q1 = Some ([5; 6; 7], q2) /\
    contents 3 q2 = [] /\
    remove 3 q2 = Wait.
Proof.
  split; [lia|]. split; [exact wrapped_Rep|].
  apply (fill_then_drain 3 ltac:(lia) wrapped [5] [6; 7] wrapped_Rep).
  simpl. lia.
Defined.

End BBQ.

(** ** Threads on a shared queue

    Every access to the queue happens inside a [std::unique_lock] on
    [m_mutex], so what a thread does between acquiring and releasing the mutex
    is atomic for the other threads.  [cv.wait(lock, pred)] is
    [while (!pred()) cv.wait(lock);]: a thread that holds the mutex either
    finds its predicate false, releases the mutex and blocks on the condition
    variable in one step, or finds it true, runs the rest of the call
    (including [notify_one]) and releases the mutex on return.  A blocked
    thread is unblocked by [notify_one] or spuriously; it then competes for
    the mutex again and re-evaluates the predicate.  One scheduling event is
    one such step of one thread. *)

Module Monitor.
Import BBQ.

(** A call of a member function of the queue. *)
Inductive call : Type :=
| Insert (item : Z)
| Remove.

(** The two condition variables of [class BBQ]. *)
Inductive condvar : Type :=
| m_itemAdded     (* signalled by insert, awaited by remove *)
| m_itemRemoved.  (* signalled by remove, awaited by insert *)

Definition condvar_eqb (a b : condvar) : bool :=
  match a, b with
  | m_itemAdded, m_itemAdded | m_itemRemoved, m_itemRemoved => true
  | _, _ => false
  end.

(** Where a thread is. *)
Inductive tstate : Type :=
| Idle                               (* outside the queue *)
| Locking (c : call)                 (* called: acquiring m_mutex (line 11 / 20) *)
| Blocked (cv : condvar) (c : call)  (* inside wait, mutex released *)
| Woken (c : call).                  (* unblocked: reacquiring m_mutex inside wait *)

(** The observable history of a run: calls and returns, oldest first. *)
Inductive hevent : Type :=
| Invoked (t : nat) (c : call)
| InsertReturned (t : nat) (item : Z)
| RemoveReturned (t : nat) (item : Z).

Record System : Type := mkSystem {
  queue : BBQ;
  threads : list tstate;
  history : list hevent
}.

(** A choice of the scheduler. [pick] resolves which waiting thread
    [notify_one] unblocks. *)
Inductive sched : Type :=
| Call (t : nat) (c : call)
| Run (t pick : nat)
| Spurious (t : nat).

(** The condition variable a call waits on (lines 12 and 21). *)
Definition wait_cv (c : call) : condvar :=
  match c with Insert _ => m_itemRemoved | Remove => m_itemAdded end.

Definition blocked_on (cv : condvar) (st : tstate) : bool :=
  match st with
  | Blocked cv' _ => condvar_eqb cv cv'
  | _ => false
  end.

(** The threads blocked on [cv], numbered from [i]. *)
Fixpoint waiters_from (i : nat) (cv : condvar) (ts : list tstate) : list nat :=
  match ts with
  | [] => []
  | st :: ts' =>
      if blocked_on cv st then i :: waiters_from (S i) cv ts'
      else waiters_from (S i) cv ts'
  end.

Definition waiters (cv : condvar) (ts : list tstate) : list nat :=
  waiters_from 0 cv ts.

(** [cv.notify_one()]: unblocks one of the threads blocked on [cv], if there
    is any. *)
Definition notify_one (cv : condvar) (pick : nat) (ts : list tstate) : list tstate :=
  let ws := waiters cv ts in
  match ws !! (pick mod length ws)%nat with
  | Some w =>
      match ts !! w with
      | Some (Blocked _ c) => <[w := Woken c]> ts
      | _ => ts
      end
  | None => ts
  end.

Definition in_call (st : tstate) : option call :=
  match st with
  | Idle => None
  | Locking c | Blocked _ c | Woken c => Some c
  end.

(** [wakes_one cv ts ts']: [ts'] is [ts] with exactly one thread blocked on
    [cv] unblocked, or [ts] itself when no thread is blocked on [cv]. *)
Definition wakes_one (cv : condvar) (ts ts' : list tstate) : Prop :=
  ((forall t c, ts !! t <> Some (Blocked cv c)) /\ ts' = ts) \/
  (exists w c, ts !! w = Some (Blocked cv c) /\ ts' = <[w := Woken c]> ts).

Lemma condvar_eqb_eq a b : condvar_eqb a b = true <-> a = b.
Proof. destruct a, b; simpl; split; congruence. Qed.

Lemma blocked_on_spec cv st :
  blocked_on cv st = true <-> exists c, st = Blocked cv c.
Proof.
  destruct st as [|c|cv' c|c]; simpl;
    try (split; [discriminate | intros [? ?]; discriminate]).
  rewrite condvar_eqb_eq. split.
  - intros ->. eauto.
  - intros [c' E]. congruence.
Qed.

Lemma elem_of_waiters_from i cv ts w :
  w ∈ waiters_from i cv ts <->
  exists k c, w = (i + k)%nat /\ ts !! k = Some (Blocked cv c).
Proof.
  revert i. induction ts as [|st ts IH]; intros i; simpl.
  - split; [intros H; inversion H | intros (k & c & _ & H); discriminate].
  - assert (Htl : w ∈ waiters_from (S i) cv ts <->
                  exists k c, w = (i + S k)%nat /\ ts !! k = Some (Blocked cv c)).
    { rewrite IH. split; intros (k & c & -> & H); exists k, c; split; auto; lia. }
    destruct (blocked_on cv st) eqn:B.
    + apply blocked_on_spec in B as [c0 ->].
      rewrite elem_of_cons, Htl. split.
      * intros [->|(k & c & -> & H)].
        -- exists 0%nat, c0. split; [lia | reflexivity].
        -- exists (S k), c. auto.
      * intros (k & c & -> & H). destruct k as [|k].
        -- left. lia.
        -- right. exists k, c. auto.
    + rewrite Htl. split.
      * intros (k & c & -> & H). exists (S k), c. auto.
      * intros (k & c & -> & H). destruct k as [|k].
        -- simpl in H. injection H as ->.
           simpl in B. rewrite (proj2 (condvar_eqb_eq cv cv) eq_refl) in B.
           discriminate.
        -- exists k, c. auto.
Qed.

Lemma elem_of_waiters cv ts w :
  w ∈ waiters cv ts <-> exists c, ts !! w = Some (Blocked cv c).
Proof.
  unfold waiters. rewrite elem_of_waiters_from. split.
  - intros (k & c & -> & H). eauto.
  - intros (c & H). exists w, c. auto.
Qed.

(** [notify_one] unblocks exactly one waiting thread, if there is one. *)
Lemma notify_one_wakes_one cv pick ts : wakes_one cv ts (notify_one cv pick ts).
Proof.
  unfold notify_one.
  destruct (waiters cv ts !! (pick mod length (waiters cv ts))%nat) as [w|] eqn:E.
  - assert (Hw : w ∈ waiters cv ts) by (eapply list_elem_of_lookup_2; eauto).
    apply elem_of_waiters in Hw as [c Hc]. rewrite Hc.
    right. eauto.
  - left. split; [|reflexivity]. intros t c Ht.
    assert (Hin : t ∈ waiters cv ts) by (apply elem_of_waiters; eauto).
    apply lookup_ge_None in E.
    destruct (waiters cv ts) as [|w0 ws]; [inversion Hin|].
    pose proof (Nat.mod_upper_bound pick (length (w0 :: ws))) as Hb.
    simpl in *. lia.
Qed.

(** Every waiting thread can be the one [notify_one] unblocks. *)
Lemma notify_one_any cv ts w c :
  ts !! w = Some (Blocked cv c) ->
  exists pick, notify_one cv pick ts = <[w := Woken c]> ts.
Proof.
  intros Hw.
  assert (Hin : w ∈ waiters cv ts) by (apply elem_of_waiters; eauto).
  apply list_elem_of_lookup_1 in Hin as [i Hi].
  exists i. unfold notify_one.
  rewrite Nat.mod_small by (eapply lookup_lt_Some; eauto).
  rewrite Hi, Hw. reflexivity.
Qed.

(** Waking a thread does not change which call it is in. *)
Lemma wakes_one_in_call cv ts ts' :
  wakes_one cv ts ts' -> in_call <$> ts' = in_call <$> ts.
Proof.
  intros [[_ ->]|(w & c & Hw & ->)]; [reflexivity|].
  rewrite list_fmap_insert. apply list_insert_id.
  rewrite list_lookup_fmap, Hw. reflexivity.
Qed.

Lemma notify_one_in_call cv pick ts :
  in_call <$> notify_one cv pick ts = in_call <$> ts.
Proof. eapply wakes_one_in_call, notify_one_wakes_one. Qed.

Section WithMAX.

Variable MAX : Z.

(** The system before any call: a fresh queue and [n] threads. *)
Definition init (n : nat) : System :=
  {| queue := BBQ_new MAX; threads := replicate n Idle; history := [] |}.

(** A thread that holds the mutex runs [BBQ::insert]. *)
Definition run_insert (t pick : nat) (item : Z) (s : System) : option System :=
  match insert MAX item (queue s) with
  | Wait =>
      Some {| queue := queue s;
              threads := <[t := Blocked m_itemRemoved (Insert item)]> (threads s);
              history := history s |}
  | Done _ q' =>
      Some {| queue := q';
              threads := <[t := Idle]> (notify_one m_itemAdded pick (threads s));
              history := history s ++ [InsertReturned t item] |}
  | Fault => None
  end.

(** A thread that holds the mutex runs [BBQ::remove]. *)
Definition run_remove (t pick : nat) (s : System) : option System :=
  match remove MAX (queue s) with
  | Wait =>
      Some {| queue := queue s;
              threads := <[t := Blocked m_itemAdded Remove]> (threads s);
              history := history s |}
  | Done item q' =>
      Some {| queue := q';
              threads := <[t := Idle]> (notify_one m_itemRemoved pick (threads s));
              history := history s ++ [RemoveReturned t item] |}
  | Fault => None
  end.

Definition run_call (t pick : nat) (c : call) (s : System) : option System :=
  match c with
  | Insert item => run_insert t pick item s
  | Remove => run_remove t pick s
  end.

(** One scheduling event; [None] when the event is not enabled in [s] or the
    step runs into undefined behaviour. *)
Definition exec (e : sched) (s : System) : option System :=
  match e with
  | Call t c =>
      match threads s !! t with
      | Some Idle =>
          Some {| queue := queue s;
                  threads := <[t := Locking c]> (threads s);
                  history := history s ++ [Invoked t c] |}
      | _ => None
      end
  | Run t pick =>
      match threads s !! t with
      | Some (Locking c) | Some (Woken c) => run_call t pick c s
      | _ => None
      end
  | Spurious t =>
      match threads s !! t with
      | Some (Blocked _ c) =>
          Some {| queue := queue s;
                  threads := <[t := Woken c]> (threads s);
                  history := history s |}
      | _ => None
      end
  end.

Fixpoint execs (es : list sched) (s : System) : option System :=
  match es with
  | [] => Some s
  | e :: es' => s' ← exec e s; execs es' s'
  end.

(** *** Readings of the history *)

(** Items whose insert has completed, in the order of completion. *)
Definition inserted (h : list hevent) : list Z :=
  omap (fun e => match e with InsertReturned _ x => Some x | _ => None end) h.

(** Items returned by remove, in the order of completion. *)
Definition removed (h : list hevent) : list Z :=
  omap (fun e => match e with RemoveReturned _ x => Some x | _ => None end) h.

(** Items passed to insert by thread [p], in the order of its calls. *)
Definition passed (p : nat) (h : list hevent) : list Z :=
  omap (fun e => match e with
                 | Invoked t (Insert x) => if Nat.eqb t p then Some x else None
                 | _ => None
                 end) h.

(** Items whose insert by thread [p] has completed. *)
Definition inserted_by (p : nat) (h : list hevent) : list Z :=
  omap (fun e => match e with
                 | InsertReturned t x => if Nat.eqb t p then Some x else None
                 | _ => None
                 end) h.

(** Items returned to thread [c] by remove, in the order of its calls. *)
Definition returned (c : nat) (h : list hevent) : list Z :=
  omap (fun e => match e with
                 | RemoveReturned t x => if Nat.eqb t c then Some x else None
                 | _ => None
                 end) h.

(** *** The queue invariant along a run *)

(** The queue holds the items inserted and not yet removed, oldest first. *)
Definition Inv (s : System) : Prop :=
  exists l, Rep MAX (queue s) l /\
            inserted (history s) = removed (history s) ++ l.

Hypothesis MAX_pos : 0 < MAX.

Lemma Inv_init n : Inv (init n).
Proof. exists []. split; [apply Rep_new; exact MAX_pos | reflexivity]. Qed.

(** [BBQ::insert] under the mutex on a queue holding [l]. *)
Lemma run_insert_proceeds s l t pick x :
  Rep MAX (queue s) l -> Z.of_nat (length l) < MAX ->
  exists q', Rep MAX q' (l ++ [x]) /\
    insert MAX x (queue s) = Done tt q' /\
    run_insert t pick x s =
      Some {| queue := q';
              threads := <[t := Idle]> (notify_one m_itemAdded pick (threads s));
              history := history s ++ [InsertReturned t x] |}.
Proof.
  intros HR Hlt.
  destruct (insert_Rep MAX MAX_pos _ _ x HR Hlt) as (q' & E & R).
  exists q'. split; [exact R|]. split; [exact E|].
  unfold run_insert. rewrite E. reflexivity.
Qed.

Lemma run_insert_blocks s l t pick x :
  Rep MAX (queue s) l -> Z.of_nat (length l) = MAX ->
  run_insert t pick x s =
    Some {| queue := queue s;
            threads := <[t := Blocked m_itemRemoved (Insert x)]> (threads s);
            history := history s |}.
Proof.
  intros HR Hl. unfold run_insert.
  rewrite (insert_full MAX _ _ x HR Hl). reflexivity.
Qed.

(** [BBQ::remove] under the mutex. *)
Lemma run_remove_proceeds s x l t pick :
  Rep MAX (queue s) (x :: l) ->
  Rep MAX (inc_head (queue s)) l /\
  run_remove t pick s =
    Some {| queue := inc_head (queue s);
            threads := <[t := Idle]> (notify_one m_itemRemoved pick (threads s));
            history := history s ++ [RemoveReturned t x] |}.
Proof.
  intros HR. destruct (remove_Rep MAX MAX_pos _ _ _ HR) as [E R].
  split; [exact R|]. unfold run_remove. rewrite E. reflexivity.
Qed.

Lemma run_remove_blocks s t pick :
  Rep MAX (queue s) [] ->
  run_remove t pick s =
    Some {| queue := queue s;
            threads := <[t := Blocked m_itemAdded Remove]> (threads s);
            history := history s |}.
Proof.
  intros HR. unfold run_remove.
  rewrite (remove_empty MAX _ HR). reflexivity.
Qed.

(** A thread that owns the mutex never runs into undefined behaviour: it
    completes its call or waits. *)
Lemma run_no_fault s t c pick :
  Inv s ->
  threads s !! t = Some (Locking c) \/ threads s !! t = Some (Woken c) ->
  is_Some (exec (Run t pick) s).
Proof.
  intros (l & HR & _) Ht.
  assert (Hrun : is_Some (run_call t pick c s)).
  { destruct c as [x|]; simpl.
    - destruct (decide (Z.of_nat (length l) < MAX)) as [Hlt|Hge].
      + destruct (run_insert_proceeds s l t pick x HR Hlt) as (q' & _ & _ & E).
        rewrite E. eauto.
      + assert (Hfull : Z.of_nat (length l) = MAX)
          by (destruct HR as (_ & _ & ? & _); lia).
        rewrite (run_insert_blocks s l t pick x HR Hfull). eauto.
    - destruct l as [|x l].
      + rewrite (run_remove_blocks s t pick HR). eauto.
      + destruct (run_remove_proceeds s x l t pick HR) as [_ E].
        rewrite E. eauto. }
  simpl. destruct Ht as [-> | ->]; exact Hrun.
Qed.

(** Every step is one of five kinds. *)
Inductive step_kind (s s' : System) : Prop :=
| K_call t c :
    threads s !! t = Some Idle ->
    queue s' = queue s ->
    threads s' = <[t := Locking c]> (threads s) ->
    history s' = history s ++ [Invoked t c] ->
    step_kind s s'
| K_block t c :
    (threads s !! t = Some (Locking c) \/ threads s !! t = Some (Woken c)) ->
    match c with
    | Insert _ => count (queue s) = MAX
    | Remove => count (queue s) = 0
    end ->
    queue s' = queue s ->
    threads s' = <[t := Blocked (wait_cv c) c]> (threads s) ->
    history s' = history s ->
    step_kind s s'
| K_insert t x pick l :
    (threads s !! t = Some (Locking (Insert x)) \/
     threads s !! t = Some (Woken (Insert x))) ->
    Rep MAX (queue s) l -> Z.of_nat (length l) < MAX ->
    Rep MAX (queue s') (l ++ [x]) ->
    insert MAX x (queue s) = Done tt (queue s') ->
    threads s' = <[t := Idle]> (notify_one m_itemAdded pick (threads s)) ->
    history s' = history s ++ [InsertReturned t x] ->
    step_kind s s'
| K_remove t x pick l :
    (threads s !! t = Some (Locking Remove) \/
     threads s !! t = Some (Woken Remove)) ->
    Rep MAX (queue s) (x :: l) ->
    Rep MAX (queue s') l ->
    remove MAX (queue s) = Done x (queue s') ->
    threads s' = <[t := Idle]> (notify_one m_itemRemoved pick (threads s)) ->
    history s' = history s ++ [RemoveReturned t x] ->
    step_kind s s'
| K_spurious t cv c :
    threads s !! t = Some (Blocked cv c) ->
    queue s' = queue s ->
    threads s' = <[t := Woken c]> (threads s) ->
    history s' = history s ->
    step_kind s s'.

(** Case analysis on the kind of a step, with fixed names. *)
Ltac step_cases K :=
  destruct K as [t' c' Ht' Hq Hts Hhist
                | t' c' Ht' Hc Hq Hts Hhist
                | t' x pick l0 Ht' HR0 Hlt HR' Hi Hts Hhist
                | t' x pick l0 Ht' HR0 HR' Hr Hts Hhist
                | t' cv c' Ht' Hq Hts Hhist].

Lemma run_call_kind s s' l t pick c :
  Rep MAX (queue s) l ->
  (threads s !! t = Some (Locking c) \/ threads s !! t = Some (Woken c)) ->
  run_call t pick c s = Some s' ->
  step_kind s s'.
Proof.
  intros HR Ht H.
  pose proof (Rep_count MAX _ _ HR) as Hc.
  destruct c as [x|]; simpl in H.
  - destruct (decide (Z.of_nat (length l) < MAX)) as [Hlt|Hge].
    + destruct (run_insert_proceeds s l t pick x HR Hlt) as (q' & R & Ei & E).
      rewrite E in H. injection H as <-.
      eapply K_insert; eauto.
    + assert (Hfull : Z.of_nat (length l) = MAX)
        by (destruct HR as (_ & _ & ? & _); lia).
      rewrite (run_insert_blocks s l t pick x HR Hfull) in H. injection H as <-.
      eapply (K_block _ _ t (Insert x)); simpl; eauto. lia.
  - destruct l as [|x l].
    + rewrite (run_remove_blocks s t pick HR) in H. injection H as <-.
      eapply (K_block _ _ t Remove); simpl; eauto.
    + destruct (run_remove_proceeds s x l t pick HR) as [R E].
      rewrite E in H. injection H as <-.
      eapply K_remove; eauto.
      destruct (remove_Rep MAX MAX_pos _ _ _ HR) as [E' _]. exact E'.
Qed.

Lemma exec_kind e s s' :
  Inv s -> exec e s = Some s' -> step_kind s s'.
Proof.
  intros (l & HR & _) H. destruct e as [t c|t pick|t]; simpl in H.
  - destruct (threads s !! t) as [[]|] eqn:Ht; try discriminate.
    injection H as <-. eapply K_call; eauto.
  - destruct (threads s !! t) as [[|c|cv c|c]|] eqn:Ht; try discriminate;
      eapply run_call_kind; eauto.
  - destruct (threads s !! t) as [[|c|cv c|c]|] eqn:Ht; try discriminate.
    injection H as <-. eapply K_spurious; eauto.
Qed.

Lemma inserted_snoc h e :
  inserted (h ++ [e]) =
  inserted h ++ match e with InsertReturned _ x => [x] | _ => [] end.
Proof.
  unfold inserted. rewrite omap_app. f_equal. destruct e; reflexivity.
Qed.

Lemma removed_snoc h e :
  removed (h ++ [e]) =
  removed h ++ match e with RemoveReturned _ x => [x] | _ => [] end.
Proof.
  unfold removed. rewrite omap_app. f_equal. destruct e; reflexivity.
Qed.

Lemma Inv_step s s' : Inv s -> step_kind s s' -> Inv s'.
Proof.
  intros (l & HR & Hh) K.
  step_cases K.
  - exists l. rewrite Hq, Hhist, inserted_snoc, removed_snoc; simpl.
    rewrite !app_nil_r. auto.
  - exists l. rewrite Hq, Hhist. auto.
  - assert (l0 = l) as -> by apply (Rep_functional MAX MAX_pos _ _ _ HR0 HR).
    exists (l ++ [x]). split; [exact HR'|].
    rewrite Hhist, inserted_snoc, removed_snoc; simpl.
    rewrite Hh, app_nil_r, app_assoc. reflexivity.
  - assert (x :: l0 = l) as <- by apply (Rep_functional MAX MAX_pos _ _ _ HR0 HR).
    exists l0. split; [exact HR'|].
    rewrite Hhist, inserted_snoc, removed_snoc; simpl.
    rewrite Hh, app_nil_r, <- app_assoc. reflexivity.
  - exists l. rewrite Hq, Hhist. auto.
Qed.

Lemma Inv_exec e s s' : Inv s -> exec e s = Some s' -> Inv s'.
Proof. intros HI H. eapply Inv_step; eauto using exec_kind. Qed.

Lemma Inv_execs es s s' : Inv s -> execs es s = Some s' -> Inv s'.
Proof.
  revert s. induction es as [|e es IH]; intros s HI H; simpl in H.
  - injection H as <-. exact HI.
  - destruct (exec e s) as [s1|] eqn:E; [|discriminate]. simpl in H.
    eapply IH; [|exact H]. eapply Inv_exec; eauto.
Qed.

Lemma reachable_Inv n es s : execs es (init n) = Some s -> Inv s.
Proof. apply Inv_execs, Inv_init. Qed.

(** A property kept by every step from a state satisfying [Inv] holds along
    every run. *)
Lemma execs_invariant (P : System -> Prop) :
  (forall s s', Inv s -> P s -> step_kind s s' -> P s') ->
  forall es s s', Inv s -> P s -> execs es s = Some s' -> P s'.
Proof.
  intros Hstep es. induction es as [|e es IH]; intros s s' HI HP H; simpl in H.
  - injection H as <-. exact HP.
  - destruct (exec e s) as [s1|] eqn:E; [|discriminate]. simpl in H.
    pose proof (exec_kind e s s1 HI E) as K.
    apply (IH s1 s'); [eapply Inv_step; eauto | eapply Hstep; eauto | exact H].
Qed.

(** C1 (capacity invariant): in every state reached from the freshly
    constructed queue by any interleaving of calls of any number of threads,
    the number of live elements [m_tail - m_head] lies between [0] and
    [MAX], and it is the number of completed inserts minus the number of
    completed removes. *)
Theorem capacity_invariant n es s :
  execs es (init n) = Some s ->
  0 <= m_tail (queue s) - m_head (queue s) <= MAX /\
  m_tail (queue s) - m_head (queue s) =
    Z.of_nat (length (inserted (history s))) -
    Z.of_nat (length (removed (history s))).
Proof.
  intros H. destruct (reachable_Inv n es s H) as (l & HR & Hl).
  split; [apply (Rep_bounds MAX _ _ HR)|].
  pose proof (Rep_count MAX _ _ HR) as Hc. unfold count in Hc.
  rewrite Hc, Hl, length_app. lia.
Qed.

(** *** Calls and returns along a run *)

(** The call each thread is in, if any. *)
Definition calls (s : System) : list (option call) := in_call <$> threads s.

(** The item of the insert a thread is in. *)
Definition pend (o : option (option call)) : list Z :=
  match o with
  | Some (Some (Insert x)) => [x]
  | _ => []
  end.

(** What a step changes in the calls and in the history. *)
Inductive step_obs (s s' : System) : Prop :=
| O_silent :
    calls s' = calls s -> history s' = history s -> step_obs s s'
| O_call t c :
    calls s !! t = Some None ->
    calls s' = <[t := Some c]> (calls s) ->
    history s' = history s ++ [Invoked t c] ->
    step_obs s s'
| O_insert t x :
    calls s !! t = Some (Some (Insert x)) ->
    calls s' = <[t := None]> (calls s) ->
    history s' = history s ++ [InsertReturned t x] ->
    step_obs s s'
| O_remove t x :
    calls s !! t = Some (Some Remove) ->
    calls s' = <[t := None]> (calls s) ->
    history s' = history s ++ [RemoveReturned t x] ->
    step_obs s s'.

Lemma calls_lookup s t st :
  threads s !! t = Some st -> calls s !! t = Some (in_call st).
Proof. intros H. unfold calls. rewrite list_lookup_fmap, H. reflexivity. Qed.

Lemma calls_contending s t c :
  threads s !! t = Some (Locking c) \/ threads s !! t = Some (Woken c) ->
  calls s !! t = Some (Some c).
Proof. intros [H|H]; apply (calls_lookup _ _ _ H). Qed.

Lemma step_kind_obs s s' : step_kind s s' -> step_obs s s'.
Proof.
  intros K. step_cases K.
  - eapply (O_call _ _ t' c'); [apply (calls_lookup _ _ _ Ht') | | exact Hhist].
    unfold calls. rewrite Hts, list_fmap_insert. reflexivity.
  - apply O_silent; [|exact Hhist].
    unfold calls. rewrite Hts, list_fmap_insert. simpl.
    apply list_insert_id. apply calls_contending, Ht'.
  - eapply (O_insert _ _ t' x); [apply calls_contending, Ht' | | exact Hhist].
    unfold calls. rewrite Hts, list_fmap_insert, notify_one_in_call. reflexivity.
  - eapply (O_remove _ _ t' x); [apply calls_contending, Ht' | | exact Hhist].
    unfold calls. rewrite Hts, list_fmap_insert, notify_one_in_call. reflexivity.
  - apply O_silent; [|exact Hhist].
    unfold calls. rewrite Hts, list_fmap_insert. simpl.
    apply list_insert_id. apply (calls_lookup _ _ _ Ht').
Qed.

Lemma passed_snoc p h e :
  passed p (h ++ [e]) =
  passed p h ++ match e with
                | Invoked t (Insert x) => if Nat.eqb t p then [x] else []
                | _ => []
                end.
Proof.
  unfold passed. rewrite omap_app. f_equal.
  destruct e as [t [x|]|t x|t x]; simpl; try reflexivity.
  destruct (Nat.eqb t p); reflexivity.
Qed.

Lemma inserted_by_snoc p h e :
  inserted_by p h ++ match e with
                     | InsertReturned t x => if Nat.eqb t p then [x] else []
                     | _ => []
                     end = inserted_by p (h ++ [e]).
Proof.
  unfold inserted_by. rewrite omap_app. f_equal.
  destruct e as [t c|t x|t x]; simpl; try reflexivity.
  destruct (Nat.eqb t p); reflexivity.
Qed.

(** Each thread's calls and returns match: the items it passed to insert are
    those whose insert returned, followed by the one in progress; a call in
    progress and a remove that returned were invoked before. *)
Definition Hist (s : System) : Prop :=
  forall t,
    passed t (history s) = inserted_by t (history s) ++ pend (calls s !! t) /\
    (forall c, calls s !! t = Some (Some c) -> Invoked t c ∈ history s) /\
    (forall x, RemoveReturned t x ∈ history s -> Invoked t Remove ∈ history s).

Lemma Hist_init n : Hist (init n).
Proof.
  intros t. unfold calls, init; simpl. repeat split.
  - rewrite list_lookup_fmap.
    destruct (replicate n Idle !! t) as [st|] eqn:E; [|reflexivity].
    apply lookup_replicate in E as [-> _]. reflexivity.
  - intros c H. rewrite list_lookup_fmap in H.
    destruct (replicate n Idle !! t) as [st|] eqn:E; [|discriminate].
    apply lookup_replicate in E as [-> _]. discriminate.
  - intros x H. inversion H.
Qed.

Lemma elem_of_snoc {A} (h : list A) (x y : A) :
  x ∈ h ++ [y] <-> x ∈ h \/ x = y.
Proof. rewrite elem_of_app, list_elem_of_singleton. reflexivity. Qed.

Lemma Hist_step s s' : Hist s -> step_obs s s' -> Hist s'.
Proof.
  intros HH O t0. destruct (HH t0) as (Hp & Hc & Hr).
  destruct O as [Hcs Hh | t c Ht Hcs Hh | t x Ht Hcs Hh | t x Ht Hcs Hh];
    rewrite Hcs, Hh; clear Hcs Hh.
  - auto.
  - rewrite passed_snoc, <- (inserted_by_snoc t0 _ (Invoked t c)), app_nil_r.
    pose proof (lookup_lt_Some _ _ _ Ht) as Hlt.
    destruct (decide (t0 = t)) as [->|Hne].
    + rewrite list_lookup_insert_eq by exact Hlt.
      rewrite Ht in Hp. simpl in Hp. rewrite app_nil_r in Hp.
      split; [|split].
      * rewrite Hp. destruct c as [x|]; simpl;
          [rewrite Nat.eqb_refl|rewrite app_nil_r]; reflexivity.
      * intros c' [= <-]. apply elem_of_snoc. eauto.
      * intros x [H|H]%elem_of_snoc; [|discriminate].
        apply elem_of_snoc. eauto.
    + rewrite list_lookup_insert_ne by congruence.
      split; [|split].
      * rewrite Hp. destruct c as [x|]; simpl; [|apply app_nil_r].
        rewrite (proj2 (Nat.eqb_neq t t0)) by congruence. apply app_nil_r.
      * intros c' H. apply elem_of_snoc. eauto.
      * intros x [H|H]%elem_of_snoc; [|discriminate].
        apply elem_of_snoc. eauto.
  - rewrite passed_snoc, <- (inserted_by_snoc t0 _ (InsertReturned t x)), app_nil_r.
    pose proof (lookup_lt_Some _ _ _ Ht) as Hlt.
    destruct (decide (t0 = t)) as [->|Hne].
    + rewrite list_lookup_insert_eq by exact Hlt.
      rewrite Ht in Hp. simpl in Hp.
      split; [|split].
      * rewrite Hp, Nat.eqb_refl. simpl. rewrite app_nil_r. reflexivity.
      * intros c' [=].
      * intros y [H|H]%elem_of_snoc; [|discriminate].
        apply elem_of_snoc. eauto.
    + rewrite list_lookup_insert_ne by congruence.
      split; [|split].
      * rewrite Hp, (proj2 (Nat.eqb_neq t t0)) by congruence.
        rewrite app_nil_r. reflexivity.
      * intros c' H. apply elem_of_snoc. eauto.
      * intros y [H|H]%elem_of_snoc; [|discriminate].
        apply elem_of_snoc. eauto.
  - rewrite passed_snoc, <- (inserted_by_snoc t0 _ (RemoveReturned t x)), !app_nil_r.
    pose proof (lookup_lt_Some _ _ _ Ht) as Hlt.
    destruct (decide (t0 = t)) as [->|Hne].
    + rewrite list_lookup_insert_eq by exact Hlt.
      rewrite Ht in Hp. simpl in Hp. rewrite app_nil_r in Hp.
      split; [|split].
      * rewrite Hp. simpl. rewrite app_nil_r. reflexivity.
      * intros c' [=].
      * intros y _. apply elem_of_snoc. eauto.
    + rewrite list_lookup_insert_ne by congruence.
      split; [|split].
      * exact Hp.
      * intros c' H. apply elem_of_snoc. eauto.
      * intros y [H|H]%elem_of_snoc; [|congruence].
        apply elem_of_snoc. eauto.
Qed.

Lemma Hist_execs es s s' :
  Inv s -> Hist s -> execs es s = Some s' -> Hist s'.
Proof.
  apply (execs_invariant Hist). intros s1 s2 _ HH K.
  eapply Hist_step; eauto using step_kind_obs.
Qed.

Lemma reachable_Hist n es s : execs es (init n) = Some s -> Hist s.
Proof. apply Hist_execs; [apply Inv_init | apply Hist_init]. Qed.

Lemma omap_ext_in {A B} (f g : A -> option B) (h : list A) :
  (forall a, a ∈ h -> f a = g a) -> omap f h = omap g h.
Proof.
  induction h as [|a h IH]; intros H; [reflexivity|].
  csimpl. rewrite (H a) by (apply elem_of_cons; auto).
  rewrite IH by (intros b Hb; apply H, elem_of_cons; auto). reflexivity.
Qed.

Lemma insert_was_invoked s t x :
  Hist s -> InsertReturned t x ∈ history s ->
  Invoked t (Insert x) ∈ history s.
Proof.
  intros HH Hin. destruct (HH t) as (Hp & _ & _).
  assert (Hx : x ∈ passed t (history s)).
  { rewrite Hp. apply elem_of_app. left.
    apply list_elem_of_omap. exists (InsertReturned t x).
    split; [exact Hin|]. rewrite Nat.eqb_refl. reflexivity. }
  apply list_elem_of_omap in Hx as (e & He & Hf).
  destruct e as [t' [y|]|t' y|t' y]; try discriminate.
  destruct (Nat.eqb_spec t' t) as [->|]; [|discriminate].
  injection Hf as ->. exact He.
Qed.

(** With one producer, its calls complete in the order it makes them. *)
Lemma single_producer_inserted s p :
  Hist s ->
  (forall t x, Invoked t (Insert x) ∈ history s -> t = p) ->
  inserted (history s) = inserted_by p (history s).
Proof.
  intros HH Hp. apply omap_ext_in. intros e He.
  destruct e as [t c|t x|t x]; try reflexivity.
  rewrite (Hp t x) by (apply insert_was_invoked; assumption).
  rewrite Nat.eqb_refl. reflexivity.
Qed.

Lemma single_consumer_removed s c :
  Hist s ->
  (forall t, Invoked t Remove ∈ history s -> t = c) ->
  removed (history s) = returned c (history s).
Proof.
  intros HH Hc. apply omap_ext_in. intros e He.
  destruct e as [t c'|t x|t x]; try reflexivity.
  destruct (HH t) as (_ & _ & Hr).
  rewrite (Hc t) by (eapply Hr; eauto).
  rewrite Nat.eqb_refl. reflexivity.
Qed.

(** C2 (FIFO, one producer and one consumer): on any run from the fresh
    queue in which only thread [p] calls insert and only thread [c] calls
    remove (the two may be one thread, which gives the sequential runs), the
    i-th item returned by remove is the i-th item passed to insert; when as
    many removes have returned as inserts were called, the two sequences are
    equal.  The run can always go on: no step of a thread that owns the
    mutex faults; when the queue is not empty the consumer's remove
    completes and returns the next item passed to insert that has not been
    returned yet; when the queue is not full the producer's insert
    completes. *)
Theorem fifo_single_producer_consumer n es s p c :
  execs es (init n) = Some s ->
  (forall t x, Invoked t (Insert x) ∈ history s -> t = p) ->
  (forall t, Invoked t Remove ∈ history s -> t = c) ->
  (forall i x, returned c (history s) !! i = Some x ->
               passed p (history s) !! i = Some x) /\
  (length (returned c (history s)) = length (passed p (history s)) ->
   returned c (history s) = passed p (history s)) /\
  (forall t c' pick,
     threads s !! t = Some (Locking c') \/ threads s !! t = Some (Woken c') ->
     is_Some (exec (Run t pick) s)) /\
  (forall pick,
     threads s !! c = Some (Locking Remove) \/
     threads s !! c = Some (Woken Remove) ->
     canRemove (queue s) = true ->
     exists s' x,
       exec (Run c pick) s = Some s' /\
       passed p (history s) !! length (returned c (history s)) = Some x /\
       history s' = history s ++ [RemoveReturned c x]) /\
  (forall pick x,
     threads s !! p = Some (Locking (Insert x)) \/
     threads s !! p = Some (Woken (Insert x)) ->
     canInsert MAX (queue s) = true ->
     exists s',
       exec (Run p pick) s = Some s' /\
       history s' = history s ++ [InsertReturned p x]).
Proof.
  intros H Hp Hc.
  pose proof (reachable_Hist n es s H) as HH.
  pose proof (reachable_Inv n es s H) as HI.
  destruct HI as (l & HR & Hl).
  assert (HI : Inv s) by (exists l; auto).
  destruct (HH p) as (Hpass & _ & _).
  rewrite (single_producer_inserted s p HH Hp) in Hl.
  rewrite (single_consumer_removed s c HH Hc) in Hl.
  rewrite Hl, <- app_assoc in Hpass.
  split; [|split; [|split; [|split]]].
  - intros i x Hi. rewrite Hpass. apply lookup_app_l_Some, Hi.
  - intros Hlen. rewrite Hpass in Hlen |- *.
    rewrite length_app in Hlen.
    destruct (l ++ pend (calls s !! p)) as [|y r].
    + rewrite app_nil_r. reflexivity.
    + simpl in Hlen. lia.
  - intros t c' pick Ht. eapply run_no_fault; eauto.
  - intros pick Ht Hcan.
    rewrite (canRemove_Rep MAX _ _ HR) in Hcan. apply bool_decide_eq_true in Hcan.
    destruct l as [|x l]; [congruence|].
    destruct (run_remove_proceeds s x l c pick HR) as [_ E].
    exists {| queue := inc_head (queue s);
              threads := <[c := Idle]> (notify_one m_itemRemoved pick (threads s));
              history := history s ++ [RemoveReturned c x] |}, x.
    split; [|split; [|reflexivity]].
    + simpl. destruct Ht as [-> | ->]; exact E.
    + rewrite Hpass, lookup_app_r, Nat.sub_diag by lia. reflexivity.
  - intros pick x Ht Hcan.
    rewrite (canInsert_Rep MAX _ _ HR) in Hcan. apply bool_decide_eq_true in Hcan.
    destruct (run_insert_proceeds s l p pick x HR Hcan) as (q' & _ & _ & E).
    exists {| queue := q';
              threads := <[p := Idle]> (notify_one m_itemAdded pick (threads s));
              history := history s ++ [InsertReturned p x] |}.
    split; [|reflexivity].
    simpl. destruct Ht as [-> | ->]; exact E.
Qed.

(** *** Every returned item was inserted before *)

(** The remove that returns after [k] others returns the item of the
    insert that completed after [k] others, and that insert is earlier in the
    history. *)
Definition Prev (s : System) : Prop :=
  forall h1 t x h2,
    history s = h1 ++ RemoveReturned t x :: h2 ->
    inserted h1 !! length (removed h1) = Some x.

Lemma Prev_init n : Prev (init n).
Proof. intros h1 t x h2 H. simpl in H. destruct h1; discriminate. Qed.

Lemma Prev_snoc s s' e :
  Prev s ->
  history s' = history s ++ [e] ->
  (forall t x, e = RemoveReturned t x ->
     inserted (history s) !! length (removed (history s)) = Some x) ->
  Prev s'.
Proof.
  intros HP Hh He h1 t x h2 E. rewrite Hh in E.
  induction h2 as [|e' h2 _] using rev_ind.
  - apply app_inj_tail in E as [<- ->]. eapply He; eauto.
  - change (RemoveReturned t x :: h2 ++ [e'])
      with ((RemoveReturned t x :: h2) ++ [e']) in E.
    rewrite app_assoc in E. apply app_inj_tail in E as [E _].
    eapply HP; eauto.
Qed.

Lemma Prev_step s s' : Inv s -> Prev s -> step_kind s s' -> Prev s'.
Proof.
  intros (l & HR & Hl) HP K. step_cases K.
  - eapply Prev_snoc; eauto. discriminate.
  - intros h1 t1 x1 h2 E. rewrite Hhist in E. eapply HP; eauto.
  - eapply Prev_snoc; eauto. discriminate.
  - eapply Prev_snoc; eauto. intros t1 x1 [= _ <-].
    rewrite (Rep_functional MAX MAX_pos _ _ _ HR HR0) in Hl.
    rewrite Hl, lookup_app_r, Nat.sub_diag by lia. reflexivity.
  - intros h1 t1 x1 h2 E. rewrite Hhist in E. eapply HP; eauto.
Qed.

Lemma Prev_execs es s s' :
  Inv s -> Prev s -> execs es s = Some s' -> Prev s'.
Proof. apply (execs_invariant Prev), Prev_step. Qed.

(** C3 (no loss, no duplication): on any run of any number of threads from
    the fresh queue, every remove returns an item whose insert completed
    before it, the k-th remove taking the k-th insert, so that no two
    removes return the same insert; and once as many removes as inserts have
    completed, the items removed are the items inserted, as multisets.
    Nothing is lost on the way: no step of a thread that owns the mutex
    faults, and the items inserted and not yet removed are the contents of
    the queue, in order; removing that many times returns exactly them. *)
Theorem no_loss_no_duplication n es s :
  execs es (init n) = Some s ->
  (forall h1 t x h2,
     history s = h1 ++ RemoveReturned t x :: h2 ->
     inserted h1 !! length (removed h1) = Some x) /\
  (length (inserted (history s)) = length (removed (history s)) ->
   removed (history s) ≡ₚ inserted (history s)) /\
  (forall t c' pick,
     threads s !! t = Some (Locking c') \/ threads s !! t = Some (Woken c') ->
     is_Some (exec (Run t pick) s)) /\
  (exists l q',
     inserted (history s) = removed (history s) ++ l /\
     contents MAX (queue s) = Some <$> l /\
     removes MAX (length l) (queue s) = Some (l, q') /\
     contents MAX q' = []).
Proof.
  intros H.
  pose proof (reachable_Inv n es s H) as HI.
  split; [|split; [|split]].
  - apply (Prev_execs es (init n) s); auto using Inv_init, Prev_init.
  - destruct HI as (l & _ & Hl).
    intros Hlen. rewrite Hl in Hlen |- *. rewrite length_app in Hlen.
    destruct l; [|simpl in Hlen; lia].
    rewrite app_nil_r. reflexivity.
  - intros t c' pick Ht. eapply run_no_fault; eauto.
  - destruct HI as (l & HR & Hl).
    destruct (removes_Rep MAX MAX_pos l _ HR) as (q' & E & R').
    exists l, q'. split; [exact Hl|].
    split; [apply (Rep_contents MAX MAX_pos _ _ HR)|].
    split; [exact E | apply (Rep_contents MAX MAX_pos _ _ R')].
Qed.

(** *** What a call does when it proceeds *)

(** A thread blocks on the condition variable of its call only: the threads
    blocked on [m_itemAdded] are those waiting to remove, the threads blocked
    on [m_itemRemoved] those waiting to insert. *)
Definition Consistent (ts : list tstate) : Prop :=
  forall t cv c, ts !! t = Some (Blocked cv c) -> cv = wait_cv c.

Lemma Consistent_insert ts t st :
  Consistent ts ->
  (forall cv c, st = Blocked cv c -> cv = wait_cv c) ->
  Consistent (<[t := st]> ts).
Proof.
  intros HC Hst t' cv c H.
  apply list_lookup_insert_Some in H as [(_ & -> & _)|(_ & H)].
  - eapply Hst; eauto.
  - eapply HC; eauto.
Qed.

Lemma Consistent_notify cv pick ts :
  Consistent ts -> Consistent (notify_one cv pick ts).
Proof.
  intros HC.
  destruct (notify_one_wakes_one cv pick ts) as [[_ ->]|(w & c & _ & ->)];
    [exact HC|].
  apply Consistent_insert; [exact HC | discriminate].
Qed.

Lemma Consistent_step s s' :
  step_kind s s' -> Consistent (threads s) -> Consistent (threads s').
Proof.
  intros K HC.
  step_cases K;
    rewrite Hts.
  - apply Consistent_insert; [exact HC | discriminate].
  - apply Consistent_insert; [exact HC | congruence].
  - apply Consistent_insert; [apply Consistent_notify, HC | discriminate].
  - apply Consistent_insert; [apply Consistent_notify, HC | discriminate].
  - apply Consistent_insert; [exact HC | discriminate].
Qed.




(** *** Blocking *)

(** The state in which a call has to wait: insert on a full queue, remove on
    an empty one. *)
Definition must_wait (c : call) (q : BBQ) : Prop :=
  match c with
  | Insert _ => count q = MAX
  | Remove => count q = 0
  end.

(** The number of completed calls of the opposite kind. *)
Definition opposite_done (c : call) (h : list hevent) : nat :=
  match c with
  | Insert _ => length (removed h)
  | Remove => length (inserted h)
  end.

(** A call of thread [t] returns in the step from [s] to [s'] only by
    performing its effect on the queue. *)
Definition returned_with_effect (t : nat) (c : call) (s s' : System) : Prop :=
  match c with
  | Insert x =>
      exists l, Rep MAX (queue s) l /\ Rep MAX (queue s') (l ++ [x]) /\
                history s' = history s ++ [InsertReturned t x]
  | Remove =>
      exists x l, Rep MAX (queue s) (x :: l) /\ Rep MAX (queue s') l /\
                  history s' = history s ++ [RemoveReturned t x]
  end.

(** While thread [t] is in a call that has to wait, a step either completes
    a call of the opposite kind, or completes no call at all and leaves [t]
    in its call, still having to wait. *)
Lemma calls_set s s' t st :
  threads s' = <[t := st]> (threads s) ->
  calls s' = <[t := in_call st]> (calls s).
Proof. intros H. unfold calls. rewrite H, list_fmap_insert. reflexivity. Qed.

Lemma calls_same s s' t st :
  threads s' = <[t := st]> (threads s) ->
  calls s !! t = Some (in_call st) ->
  calls s' = calls s.
Proof.
  intros H Ht. rewrite (calls_set _ _ _ _ H). apply list_insert_id, Ht.
Qed.

Lemma must_wait_step s s' t c :
  Inv s -> step_kind s s' ->
  calls s !! t = Some (Some c) -> must_wait c (queue s) ->
  opposite_done c (history s') = S (opposite_done c (history s)) \/
  (calls s' !! t = Some (Some c) /\ must_wait c (queue s') /\
   inserted (history s') = inserted (history s) /\
   removed (history s') = removed (history s)).
Proof.
  intros (l & HR & Hl) K Ht Hw.
  pose proof (Rep_count MAX _ _ HR) as Hcount.
  step_cases K.
  - right. rewrite Hq, Hhist, inserted_snoc, removed_snoc. simpl.
    rewrite !app_nil_r. repeat split; auto.
    rewrite (calls_set _ _ _ _ Hts), list_lookup_insert_ne; [exact Ht|].
    intros ->. rewrite (calls_lookup _ _ _ Ht') in Ht. discriminate.
  - right. rewrite Hq, Hhist. repeat split; auto.
    rewrite (calls_same _ _ _ _ Hts); [exact Ht|].
    apply calls_contending, Ht'.
  - rewrite (Rep_functional MAX MAX_pos _ _ _ HR0 HR) in Hlt.
    destruct c as [y|]; simpl in *.
    + lia.
    + left. rewrite Hhist, inserted_snoc, length_app. simpl. lia.
  - rewrite <- (Rep_functional MAX MAX_pos _ _ _ HR0 HR) in Hcount.
    destruct c as [y|]; simpl in *.
    + left. rewrite Hhist, removed_snoc, length_app. simpl. lia.
    + lia.
  - right. rewrite Hq, Hhist. repeat split; auto.
    rewrite (calls_same _ _ _ _ Hts); [exact Ht|].
    apply (calls_lookup _ _ _ Ht').
Qed.

Lemma opposite_done_mono s s' c :
  step_kind s s' ->
  (opposite_done c (history s) <= opposite_done c (history s'))%nat.
Proof.
  intros K.
  destruct K as [t' c' _ _ _ Hhist | t' c' _ _ _ _ Hhist
                | t' x pick l0 _ _ _ _ _ _ Hhist
                | t' x pick l0 _ _ _ _ _ Hhist
                | t' cv c' _ _ _ Hhist];
    rewrite Hhist; destruct c; simpl;
    rewrite ?inserted_snoc, ?removed_snoc, ?length_app; simpl; lia.
Qed.

(** Along a run, as long as no call of the opposite kind completes, a call
    that had to wait is still in progress and no call has returned. *)
Lemma must_wait_execs t c d i0 r0 es :
  forall s s',
    Inv s ->
    (d <= opposite_done c (history s))%nat ->
    (opposite_done c (history s) = d ->
     calls s !! t = Some (Some c) /\ must_wait c (queue s) /\
     inserted (history s) = i0 /\ removed (history s) = r0) ->
    execs es s = Some s' ->
    opposite_done c (history s') = d ->
    calls s' !! t = Some (Some c) /\ must_wait c (queue s') /\
    inserted (history s') = i0 /\ removed (history s') = r0.
Proof.
  induction es as [|e es IH]; intros s s' HI Hd Hs H; simpl in H.
  - injection H as <-. exact Hs.
  - destruct (exec e s) as [s1|] eqn:E; [|discriminate]. simpl in H.
    pose proof (exec_kind e s s1 HI E) as K.
    pose proof (opposite_done_mono s s1 c K) as Hmono.
    apply (IH s1 s'); [eapply Inv_step; eauto | lia | | exact H].
    intros Hd1.
    assert (Hd0 : opposite_done c (history s) = d) by lia.
    destruct (Hs Hd0) as (Ht & Hw & Hi & Hr).
    destruct (must_wait_step s s1 t c HI K Ht Hw) as [Hinc|(Ht1 & Hw1 & Hi1 & Hr1)].
    + lia.
    + rewrite Hi1, Hr1. auto.
Qed.

Lemma calls_set_notify s s' t st cv pick :
  threads s' = <[t := st]> (notify_one cv pick (threads s)) ->
  calls s' = <[t := in_call st]> (calls s).
Proof.
  intros H. unfold calls.
  rewrite H, list_fmap_insert, notify_one_in_call. reflexivity.
Qed.

(** The only step that takes a thread out of its call is the one that
    performs the call. *)
Lemma return_effect e s s' t c :
  Inv s -> exec e s = Some s' ->
  calls s !! t = Some (Some c) ->
  calls s' !! t <> Some (Some c) ->
  returned_with_effect t c s s'.
Proof.
  intros HI E Ht Hne.
  pose proof (exec_kind e s s' HI E) as K.
  step_cases K.
  - exfalso. apply Hne.
    rewrite (calls_set _ _ _ _ Hts), list_lookup_insert_ne; [exact Ht|].
    intros ->. rewrite (calls_lookup _ _ _ Ht') in Ht. discriminate.
  - exfalso. apply Hne.
    rewrite (calls_same _ _ _ _ Hts); [exact Ht|]. apply calls_contending, Ht'.
  - destruct (decide (t' = t)) as [->|Hd].
    + rewrite (calls_contending _ _ _ Ht') in Ht. injection Ht as <-.
      simpl. eauto.
    + exfalso. apply Hne.
      rewrite (calls_set_notify _ _ _ _ _ _ Hts), list_lookup_insert_ne by exact Hd.
      exact Ht.
  - destruct (decide (t' = t)) as [->|Hd].
    + rewrite (calls_contending _ _ _ Ht') in Ht. injection Ht as <-.
      simpl. eauto.
    + exfalso. apply Hne.
      rewrite (calls_set_notify _ _ _ _ _ _ Hts), list_lookup_insert_ne by exact Hd.
      exact Ht.
  - exfalso. apply Hne.
    rewrite (calls_same _ _ _ _ Hts); [exact Ht|]. apply (calls_lookup _ _ _ Ht').
Qed.

(** A thread that owns the mutex while its call has to wait blocks on the
    condition variable of its call and changes nothing else. *)
Lemma run_must_wait s t c pick :
  Inv s ->
  threads s !! t = Some (Locking c) \/ threads s !! t = Some (Woken c) ->
  must_wait c (queue s) ->
  exec (Run t pick) s =
    Some {| queue := queue s;
            threads := <[t := Blocked (wait_cv c) c]> (threads s);
            history := history s |}.
Proof.
  intros (l & HR & _) Ht Hw.
  pose proof (Rep_count MAX _ _ HR) as Hcount.
  assert (Hrun : run_call t pick c s =
    Some {| queue := queue s;
            threads := <[t := Blocked (wait_cv c) c]> (threads s);
            history := history s |}).
  { destruct c as [x|]; simpl in *.
    - apply (run_insert_blocks s l t pick x HR). lia.
    - destruct l as [|x l]; [|simpl in Hcount; lia].
      apply (run_remove_blocks s t pick HR). }
  simpl. destruct Ht as [-> | ->]; exact Hrun.
Qed.

(** C5 (blocking correctness): in any state [s0] reached from the fresh
    queue, (1) a thread that calls insert while the queue is full, or remove
    while it is empty, is still inside that call, and no call has returned,
    at every later point of the run up to which no remove (respectively
    insert) has completed; (2) when it gets the mutex in such a state it
    blocks on its condition variable and changes nothing; (3) a step of a
    thread that owns the mutex is always defined, so a call never fails; and
    (4) a thread leaves its call only in the step that performs the call's
    effect on the queue, so a call neither times out nor returns early. *)
Theorem blocking_correctness n es0 s0 :
  execs es0 (init n) = Some s0 ->
  (forall t c es s',
     threads s0 !! t = Some Idle -> must_wait c (queue s0) ->
     execs (Call t c :: es) s0 = Some s' ->
     opposite_done c (history s') = opposite_done c (history s0) ->
     calls s' !! t = Some (Some c) /\
     inserted (history s') = inserted (history s0) /\
     removed (history s') = removed (history s0)) /\
  (forall t c pick,
     threads s0 !! t = Some (Locking c) \/ threads s0 !! t = Some (Woken c) ->
     must_wait c (queue s0) ->
     exec (Run t pick) s0 =
       Some {| queue := queue s0;
               threads := <[t := Blocked (wait_cv c) c]> (threads s0);
               history := history s0 |}) /\
  (forall t c pick,
     threads s0 !! t = Some (Locking c) \/ threads s0 !! t = Some (Woken c) ->
     is_Some (exec (Run t pick) s0)) /\
  (forall e s' t c,
     exec e s0 = Some s' -> calls s0 !! t = Some (Some c) ->
     calls s' !! t <> Some (Some c) ->
     returned_with_effect t c s0 s').
Proof.
  intros H0. pose proof (reachable_Inv n es0 s0 H0) as HI.
  split; [|split; [|split]].
  - intros t c es s' Ht Hw H Hd. simpl in H. rewrite Ht in H. simpl in H.
    set (s1 := {| queue := queue s0;
                  threads := <[t := Locking c]> (threads s0);
                  history := history s0 ++ [Invoked t c] |}) in *.
    assert (Hh1 : inserted (history s1) = inserted (history s0) /\
                  removed (history s1) = removed (history s0)).
    { simpl. rewrite inserted_snoc, removed_snoc. simpl.
      rewrite !app_nil_r. auto. }
    destruct Hh1 as [Hi1 Hr1].
    assert (Ho1 : opposite_done c (history s1) = opposite_done c (history s0)).
    { unfold opposite_done. destruct c; rewrite ?Hi1, ?Hr1; reflexivity. }
    assert (HI1 : Inv s1).
    { apply (Inv_exec (Call t c) s0); [exact HI|]. simpl. rewrite Ht. reflexivity. }
    destruct (must_wait_execs t c (opposite_done c (history s0))
                (inserted (history s0)) (removed (history s0)) es s1 s')
      as (Hc & _ & Hi & Hr); auto.
    + lia.
    + intros _. repeat split; auto.
      unfold calls. simpl. rewrite list_fmap_insert.
      apply list_lookup_insert_eq. rewrite length_fmap.
      eapply lookup_lt_Some; eauto.
  - intros t c pick Ht Hw. apply run_must_wait; auto.
  - intros t c pick Ht. eapply run_no_fault; eauto.
  - intros e s' t c E Ht Hne. eapply return_effect; eauto.
Qed.

(** *** The counters *)

(** What a step does to the two counters. *)
Lemma step_counters s s' :
  step_kind s s' ->
  (m_tail (queue s') = m_tail (queue s) /\ m_head (queue s') = m_head (queue s) /\
   inserted (history s') = inserted (history s) /\
   removed (history s') = removed (history s)) \/
  (exists x, m_tail (queue s') = m_tail (queue s) + 1 /\
             m_head (queue s') = m_head (queue s) /\
             inserted (history s') = inserted (history s) ++ [x] /\
             removed (history s') = removed (history s)) \/
  (exists x, m_tail (queue s') = m_tail (queue s) /\
             m_head (queue s') = m_head (queue s) + 1 /\
             inserted (history s') = inserted (history s) /\
             removed (history s') = removed (history s) ++ [x]).
Proof.
  intros K. step_cases K.
  - left. rewrite Hq, Hhist, inserted_snoc, removed_snoc. simpl.
    rewrite !app_nil_r. auto.
  - left. rewrite Hq, Hhist. auto.
  - right. left. exists x.
    rewrite (insert_Done_inv MAX MAX_pos _ _ _ _ _ HR0 Hi).
    rewrite Hhist, inserted_snoc, removed_snoc. simpl.
    rewrite app_nil_r. auto.
  - right. right. exists x.
    rewrite (remove_Done_inv MAX MAX_pos _ _ _ _ HR0 Hr).
    rewrite Hhist, inserted_snoc, removed_snoc. simpl.
    rewrite app_nil_r. auto.
  - left. rewrite Hq, Hhist. auto.
Qed.

(** X1 (the counters count completed calls): in every state reached from
    the fresh queue, [m_tail] is the number of inserts that have completed
    and [m_head] the number of removes that have completed; along any
    further run neither counter decreases. *)
Theorem counters_count_completions n es0 s0 es s :
  execs es0 (init n) = Some s0 ->
  execs es s0 = Some s ->
  m_tail (queue s0) = Z.of_nat (length (inserted (history s0))) /\
  m_head (queue s0) = Z.of_nat (length (removed (history s0))) /\
  m_tail (queue s0) <= m_tail (queue s) /\
  m_head (queue s0) <= m_head (queue s).
Proof.
  intros H0 H.
  assert (Hcount : forall es1 s1, execs es1 (init n) = Some s1 ->
            m_tail (queue s1) = Z.of_nat (length (inserted (history s1))) /\
            m_head (queue s1) = Z.of_nat (length (removed (history s1)))).
  { intros es1 s1.
    apply (execs_invariant (fun s1 =>
             m_tail (queue s1) = Z.of_nat (length (inserted (history s1))) /\
             m_head (queue s1) = Z.of_nat (length (removed (history s1)))));
      [|apply Inv_init|split; reflexivity].
    intros s1' s2 _ [Ht Hh] K.
    destruct (step_counters _ _ K)
      as [(-> & -> & -> & ->)|[(x & -> & -> & -> & ->)|(x & -> & -> & -> & ->)]];
      rewrite ?length_app; simpl; lia. }
  destruct (Hcount es0 s0 H0) as [Ht Hh].
  split; [exact Ht|]. split; [exact Hh|].
  apply (execs_invariant (fun s1 =>
           m_tail (queue s0) <= m_tail (queue s1) /\
           m_head (queue s0) <= m_head (queue s1)) ) with (es := es) (s := s0);
    [|eapply reachable_Inv; eauto|lia|exact H].
  intros s1 s2 _ [Ht1 Hh1] K.
  destruct (step_counters _ _ K)
    as [(-> & -> & _)|[(x & -> & -> & _)|(x & -> & -> & _)]]; lia.
Qed.

(** *** No lost wake-up *)

(** The number of threads whose state satisfies [f]. *)
Fixpoint tally (f : tstate -> bool) (ts : list tstate) : Z :=
  match ts with
  | [] => 0
  | st :: ts' => Z.b2z (f st) + tally f ts'
  end.

(** A woken thread whose call waits on [cv]. *)
Definition woken_for (cv : condvar) (st : tstate) : bool :=
  match st with
  | Woken c => condvar_eqb cv (wait_cv c)
  | _ => false
  end.

(** What the calls waiting on [cv] wait for: free cells for
    [m_itemRemoved], items for [m_itemAdded]. *)
Definition avail (cv : condvar) (q : BBQ) : Z :=
  match cv with
  | m_itemRemoved => MAX - count q
  | m_itemAdded => count q
  end.

(** While a thread is blocked on [cv], every free cell (every item) is
    matched by a thread that was woken for it and has not run yet. *)
Definition NoLost (s : System) : Prop :=
  forall cv, 0 < tally (blocked_on cv) (threads s) ->
             avail cv (queue s) <= tally (woken_for cv) (threads s).

Lemma tally_nonneg f ts : 0 <= tally f ts.
Proof. induction ts as [|st ts IH]; simpl; [lia|]. destruct (f st); simpl; lia. Qed.

Lemma tally_set f ts t old new :
  ts !! t = Some old ->
  tally f (<[t := new]> ts) = tally f ts - Z.b2z (f old) + Z.b2z (f new).
Proof.
  revert t. induction ts as [|st ts IH]; intros [|t] H; simpl in *;
    try discriminate.
  - injection H as ->. lia.
  - rewrite (IH t H). lia.
Qed.

Lemma tally_zero f ts :
  (forall t st, ts !! t = Some st -> f st = false) -> tally f ts = 0.
Proof.
  induction ts as [|st ts IH]; intros H; simpl; [reflexivity|].
  rewrite (H 0%nat st eq_refl), IH; [reflexivity|].
  intros t st' Ht. apply (H (S t) st' Ht).
Qed.

Lemma tally_pos f ts t st :
  ts !! t = Some st -> f st = true -> 0 < tally f ts.
Proof.
  revert t. induction ts as [|st' ts IH]; intros [|t] H Hf; simpl in *;
    try discriminate.
  - injection H as ->. rewrite Hf. pose proof (tally_nonneg f ts). simpl. lia.
  - specialize (IH t H Hf). destruct (f st'); simpl; lia.
Qed.

Lemma tally_pos_inv f ts :
  0 < tally f ts -> exists t st, ts !! t = Some st /\ f st = true.
Proof.
  induction ts as [|st ts IH]; simpl; [lia|].
  destruct (f st) eqn:E; intros H.
  - exists 0%nat, st. auto.
  - destruct IH as (t & st' & Ht & Hf); [simpl in H; lia|].
    exists (S t), st'. auto.
Qed.

(** [notify_one] on a consistent thread table: nobody is blocked on [cv],
    or one thread waiting on [cv] goes from blocked to woken. *)
Lemma notify_one_cases cv pick ts :
  Consistent ts ->
  (tally (blocked_on cv) ts = 0 /\ notify_one cv pick ts = ts) \/
  (exists w c, ts !! w = Some (Blocked cv c) /\ wait_cv c = cv /\
               notify_one cv pick ts = <[w := Woken c]> ts).
Proof.
  intros HC.
  destruct (notify_one_wakes_one cv pick ts) as [[Hno ->]|(w & c & Hw & ->)].
  - left. split; [|reflexivity]. apply tally_zero. intros t st Ht.
    destruct (blocked_on cv st) eqn:B; [|reflexivity].
    apply blocked_on_spec in B as [c ->]. destruct (Hno t c Ht).
  - right. exists w, c. split; [exact Hw|]. split; [|reflexivity].
    symmetry. apply (HC w cv c Hw).
Qed.

Lemma NoLost_init n : NoLost (init n).
Proof.
  intros cv H. simpl in H. rewrite tally_zero in H; [lia|].
  intros t st Ht. apply lookup_replicate in Ht as [-> _]. reflexivity.
Qed.

(** The two tallies after one thread changes state. *)
Ltac tally_facts cv H new :=
  let Hb := fresh "Hb" in
  let Hw := fresh "Hw" in
  pose proof (tally_set (blocked_on cv) _ _ _ new H) as Hb;
  pose proof (tally_set (woken_for cv) _ _ _ new H) as Hw.

Lemma NoLost_step s s' :
  Inv s -> Consistent (threads s) /\ NoLost s -> step_kind s s' ->
  Consistent (threads s') /\ NoLost s'.
Proof.
  intros HI [HC HN] K. split; [eapply Consistent_step; eauto|].
  intros v HB. specialize (HN v).
  pose proof (tally_nonneg (woken_for v) (threads s')) as Hnn.
  step_cases K.
  - rewrite Hts in HB |- *. rewrite Hq.
    tally_facts v Ht' (Locking c'). simpl in *. lia.
  - rewrite Hts in HB, Hnn |- *. rewrite Hq. unfold avail, must_wait in *.
    destruct Ht' as [Ht'|Ht']; tally_facts v Ht' (Blocked (wait_cv c') c');
      destruct v, c' as [y|]; simpl in *; lia.
  - pose proof (Rep_count MAX _ _ HR0) as Hc0.
    pose proof (Rep_count MAX _ _ HR') as Hc1.
    rewrite length_app in Hc1. simpl in Hc1.
    rewrite Hts in HB, Hnn |- *. unfold avail in *.
    destruct (notify_one_cases m_itemAdded pick (threads s) HC)
      as [[HB0 Hn]|(w & c & Hw & Hcv & Hn)]; rewrite Hn in *.
    + destruct Ht' as [Ht'|Ht']; tally_facts v Ht' Idle;
        destruct v; simpl in *; lia.
    + destruct c as [y|]; [discriminate|].
      assert (Ht1 : forall st, threads s !! t' = Some st ->
                <[w := Woken Remove]> (threads s) !! t' = Some st).
      { intros st Hst. rewrite list_lookup_insert_ne; [exact Hst|].
        intros ->. destruct Ht' as [Ht'|Ht']; congruence. }
      tally_facts v Hw (Woken Remove).
      destruct Ht' as [Ht'|Ht']; apply Ht1 in Ht'; tally_facts v Ht' Idle;
        destruct v; simpl in *; lia.
  - pose proof (Rep_count MAX _ _ HR0) as Hc0.
    pose proof (Rep_count MAX _ _ HR') as Hc1.
    simpl in Hc0.
    rewrite Hts in HB, Hnn |- *. unfold avail in *.
    destruct (notify_one_cases m_itemRemoved pick (threads s) HC)
      as [[HB0 Hn]|(w & c & Hw & Hcv & Hn)]; rewrite Hn in *.
    + destruct Ht' as [Ht'|Ht']; tally_facts v Ht' Idle;
        destruct v; simpl in *; lia.
    + destruct c as [y|]; [|discriminate].
      assert (Ht1 : forall st, threads s !! t' = Some st ->
                <[w := Woken (Insert y)]> (threads s) !! t' = Some st).
      { intros st Hst. rewrite list_lookup_insert_ne; [exact Hst|].
        intros ->. destruct Ht' as [Ht'|Ht']; congruence. }
      tally_facts v Hw (Woken (Insert y)).
      destruct Ht' as [Ht'|Ht']; apply Ht1 in Ht'; tally_facts v Ht' Idle;
        destruct v; simpl in *; lia.
  - rewrite Hts in HB, Hnn |- *. rewrite Hq.
    pose proof (HC _ _ _ Ht') as Hcv.
    tally_facts v Ht' (Woken c').
    destruct v, cv, c' as [y|]; simpl in *; try discriminate; lia.
Qed.

Lemma reachable_NoLost n es s :
  execs es (init n) = Some s -> Consistent (threads s) /\ NoLost s.
Proof.
  apply (execs_invariant (fun s => Consistent (threads s) /\ NoLost s)).
  - intros s1 s2 HI HP K. eapply NoLost_step; eauto.
  - apply Inv_init.
  - split; [|apply NoLost_init].
    intros t cv c H. apply lookup_replicate in H as [? _]. discriminate.
Qed.

Lemma notify_one_length cv pick ts :
  length (notify_one cv pick ts) = length ts.
Proof.
  destruct (notify_one_wakes_one cv pick ts) as [[_ ->]|(w & c & _ & ->)];
    [reflexivity | apply length_insert].
Qed.

(** While a thread is blocked on [cv] and what [cv] stands for is
    available, a thread woken for [cv] exists. *)
Lemma blocked_has_woken n es s t c cv :
  execs es (init n) = Some s ->
  threads s !! t = Some (Blocked cv c) ->
  0 < avail cv (queue s) ->
  exists w c', threads s !! w = Some (Woken c') /\ wait_cv c' = cv.
Proof.
  intros H Ht Hav.
  destruct (reachable_NoLost n es s H) as [_ HN].
  assert (HB : 0 < tally (blocked_on cv) (threads s)).
  { apply (tally_pos _ _ t _ Ht). simpl. apply condvar_eqb_eq. reflexivity. }
  specialize (HN _ HB).
  assert (HW : 0 < tally (woken_for cv) (threads s)) by lia.
  apply tally_pos_inv in HW as (w & st & Hw & Hst).
  destruct st as [|c'|cv' c'|c']; try discriminate.
  simpl in Hst. apply condvar_eqb_eq in Hst.
  exists w, c'. split; [exact Hw | congruence].
Qed.

(** A woken thread whose call can proceed completes it when it gets the
    mutex. *)
Lemma woken_completes s w c' pick :
  Inv s ->
  threads s !! w = Some (Woken c') ->
  0 < avail (wait_cv c') (queue s) ->
  exists s',
    exec (Run w pick) s = Some s' /\
    threads s' !! w = Some Idle /\
    returned_with_effect w c' s s'.
Proof.
  intros (l & HR & _) Hw Hav.
  pose proof (Rep_count MAX _ _ HR) as Hc.
  pose proof (lookup_lt_Some _ _ _ Hw) as Hlt.
  simpl. rewrite Hw. destruct c' as [y|]; simpl in *.
  - destruct (run_insert_proceeds s l w pick y HR) as (q' & R & _ & E); [lia|].
    eexists. split; [exact E|]. split.
    + simpl. apply list_lookup_insert_eq. rewrite notify_one_length. exact Hlt.
    + exists l. simpl. auto.
  - destruct l as [|x l]; [simpl in Hc; lia|].
    destruct (run_remove_proceeds s x l w pick HR) as [R E].
    eexists. split; [exact E|]. split.
    + simpl. apply list_lookup_insert_eq. rewrite notify_one_length. exact Hlt.
    + exists x, l. simpl. auto.
Qed.

Lemma avail_pos_iff s c :
  Inv s -> 0 < avail (wait_cv c) (queue s) <-> ~ must_wait c (queue s).
Proof.
  intros (l & HR & _). pose proof (Rep_bounds MAX _ _ HR).
  destruct c as [y|]; simpl; lia.
Qed.

(** X2 (no lost wake-up): in a state reached from the fresh queue, if a
    thread is blocked in a call although the call could proceed (insert with
    a free cell, remove with an item present), then some thread of the same
    kind of call has been woken and has not run yet; if that thread is the
    next to get the mutex, it completes its call (if other threads run
    first and use up the room or the items, it may block again).  So room
    or items are never left to sleeping threads only. *)
Theorem no_lost_wakeup n es s t c :
  execs es (init n) = Some s ->
  threads s !! t = Some (Blocked (wait_cv c) c) ->
  ~ must_wait c (queue s) ->
  exists w c',
    threads s !! w = Some (Woken c') /\ wait_cv c' = wait_cv c /\
    forall pick, exists s',
      exec (Run w pick) s = Some s' /\
      threads s' !! w = Some Idle /\
      returned_with_effect w c' s s'.
Proof.
  intros H Ht Hnw.
  pose proof (reachable_Inv n es s H) as HI.
  apply (avail_pos_iff s c HI) in Hnw.
  destruct (blocked_has_woken n es s t c _ H Ht Hnw) as (w & c' & Hw & Hcv).
  exists w, c'. split; [exact Hw|]. split; [exact Hcv|].
  intros pick. apply woken_completes; [exact HI | exact Hw |].
  rewrite Hcv. exact Hnw.
Qed.

(** X4 (producers and consumers are never all asleep): in a state reached
    from the fresh queue, if a thread is blocked in insert and another is
    blocked in remove, then some thread has been woken and has not run
    yet; if that thread is the next to get the mutex, it completes its
    call. *)
Theorem no_deadlock n es s t1 x t2 :
  execs es (init n) = Some s ->
  threads s !! t1 = Some (Blocked m_itemRemoved (Insert x)) ->
  threads s !! t2 = Some (Blocked m_itemAdded Remove) ->
  exists w c',
    threads s !! w = Some (Woken c') /\
    forall pick, exists s',
      exec (Run w pick) s = Some s' /\
      threads s' !! w = Some Idle /\
      returned_with_effect w c' s s'.
Proof.
  intros H H1 H2.
  pose proof (reachable_Inv n es s H) as HI.
  destruct HI as (l & HR & Hl).
  pose proof (Rep_count MAX _ _ HR) as Hc.
  assert (HI : Inv s) by (exists l; auto).
  destruct l as [|y l].
  - assert (Hav : 0 < avail m_itemRemoved (queue s)) by (simpl in *; lia).
    destruct (blocked_has_woken n es s t1 _ _ H H1 Hav) as (w & c' & Hw & Hcv).
    exists w, c'. split; [exact Hw|]. intros pick.
    apply woken_completes; [exact HI | exact Hw | rewrite Hcv; exact Hav].
  - assert (Hav : 0 < avail m_itemAdded (queue s)) by (simpl in *; lia).
    destruct (blocked_has_woken n es s t2 _ _ H H2 Hav) as (w & c' & Hw & Hcv).
    exists w, c'. split; [exact Hw|]. intros pick.
    apply woken_completes; [exact HI | exact Hw | rewrite Hcv; exact Hav].
Qed.

End WithMAX.

(** *** A small run, used to instantiate the statements above

    Capacity 2, two threads: thread 0 inserts 7 and 8, thread 1 removes
    twice. *)
Definition demo_events : list sched :=
  [Call 0 (Insert 7); Run 0 0; Call 1 Remove; Run 1 0;
   Call 0 (Insert 8); Run 0 0; Call 1 Remove; Run 1 0].

Definition demo_final : System :=
  {| queue := {| m_items := [Some 7; Some 8]; m_head := 2; m_tail := 2 |};
     threads := [Idle; Idle];
     history := [Invoked 0 (Insert 7); InsertReturned 0 7;
                 Invoked 1 Remove; RemoveReturned 1 7;
                 Invoked 0 (Insert 8); InsertReturned 0 8;
                 Invoked 1 Remove; RemoveReturned 1 8] |}.

Lemma demo_run : execs 2 demo_events (init 2 2) = Some demo_final.
Proof. reflexivity. Qed.

Lemma capacity_invariant_witness :
  0 < 2 /\
  execs 2 demo_events (init 2 2) = Some demo_final /\
  0 <= m_tail (queue demo_final) - m_head (queue demo_final) <= 2 /\
  m_tail (queue demo_final) - m_head (queue demo_final) =
    Z.of_nat (length (inserted (history demo_final))) -
    Z.of_nat (length (removed (history demo_final))).
Proof.
  split; [lia|]. split; [reflexivity|].
  apply (capacity_invariant 2 ltac:(lia) 2 demo_events demo_final).
  reflexivity.
Defined.

(** Capacity 2, thread 0 producing and thread 1 consuming: the queue holds
    two items, 3 is written into the cell that held 1 (the ring wraps), and
    thread 1 has called remove for the third time. *)
Definition demo_wrap_events : list sched :=
  [Call 0 (Insert 1); Run 0 0; Call 0 (Insert 2); Run 0 0;
   Call 1 Remove; Run 1 0; Call 0 (Insert 3); Run 0 0;
   Call 1 Remove; Run 1 0; Call 1 Remove].

Definition demo_wrap : System :=
  {| queue := {| m_items := [Some 3; Some 2]; m_head := 2; m_tail := 3 |};
     threads := [Idle; Locking Remove];
     history := [Invoked 0 (Insert 1); InsertReturned 0 1;
                 Invoked 0 (Insert 2); InsertReturned 0 2;
                 Invoked 1 Remove; RemoveReturned 1 1;
                 Invoked 0 (Insert 3); InsertReturned 0 3;
                 Invoked 1 Remove; RemoveReturned 1 2;
                 Invoked 1 Remove] |}.

Lemma fifo_single_producer_consumer_witness :
  0 < 2 /\
  execs 2 demo_wrap_events (init 2 2) = Some demo_wrap /\
  passed 0 (history demo_wrap) = [1; 2; 3] /\
  returned 1 (history demo_wrap) = [1; 2] /\
  (forall i x, returned 1 (history demo_wrap) !! i = Some x ->
               passed 0 (history demo_wrap) !! i = Some x) /\
  exists s',
    exec 2 (Run 1 0) demo_wrap = Some s' /\
    history s' = history demo_wrap ++ [RemoveReturned 1 3].
Proof.
  split; [lia|]. split; [reflexivity|]. split; [reflexivity|].
  split; [reflexivity|].
  destruct (fifo_single_producer_consumer 2 ltac:(lia) 2 demo_wrap_events
              demo_wrap 0%nat 1%nat eq_refl) as (Hpre & _ & _ & Hnext & _).
  - intros t x Hin. simpl in Hin.
    repeat (apply elem_of_cons in Hin as [Hin|Hin]; [congruence|]).
    inversion Hin.
  - intros t Hin. simpl in Hin.
    repeat (apply elem_of_cons in Hin as [Hin|Hin]; [congruence|]).
    inversion Hin.
  - split; [exact Hpre|].
    destruct (Hnext 0%nat (or_introl eq_refl) eq_refl) as (s' & x & E & Hx & Hh).
    injection Hx as <-. exists s'. split; assumption.
Defined.

Lemma no_loss_no_duplication_witness :
  0 < 2 /\
  execs 2 demo_wrap_events (init 2 2) = Some demo_wrap /\
  inserted (history demo_wrap) = [1; 2; 3] /\
  removed (history demo_wrap) = [1; 2] /\
  (forall h1 t x h2,
     history demo_wrap = h1 ++ RemoveReturned t x :: h2 ->
     inserted h1 !! length (removed h1) = Some x) /\
  exists q', removes 2 1 (queue demo_wrap) = Some ([3], q').
Proof.
  split; [lia|]. split; [reflexivity|]. split; [reflexivity|].
  split; [reflexivity|].
  destruct (no_loss_no_duplication 2 ltac:(lia) 2 demo_wrap_events demo_wrap
              eq_refl) as (Hprev & _ & _ & l & q' & Hl & _ & Hrem & _).
  split; [exact Hprev|].
  change (inserted (history demo_wrap)) with ([1; 2] ++ [3]) in Hl.
  change (removed (history demo_wrap)) with [1; 2] in Hl.
  apply app_inv_head in Hl. subst l. exists q'. exact Hrem.
Defined.




(** On the fresh queue of capacity 2, thread 1 calls remove: it blocks, and
    after a spurious wake-up it blocks again. *)
Definition demo_blocked : System :=
  {| queue := BBQ_new 2;
     threads := [Idle; Blocked m_itemAdded Remove];
     history := [Invoked 1 Remove] |}.

Lemma blocking_correctness_witness :
  0 < 2 /\
  execs 2 [] (init 2 2) = Some (init 2 2) /\
  threads (init 2 2) !! 1%nat = Some Idle /\
  must_wait 2 Remove (queue (init 2 2)) /\
  execs 2 [Call 1 Remove; Run 1 0; Spurious 1; Run 1 0] (init 2 2) = Some demo_blocked /\
  calls demo_blocked !! 1%nat = Some (Some Remove) /\
  inserted (history demo_blocked) = inserted (history (init 2 2)) /\
  removed (history demo_blocked) = removed (history (init 2 2)).
Proof.
  split; [lia|]. split; [reflexivity|]. split; [reflexivity|].
  split; [reflexivity|]. split; [reflexivity|].
  apply (proj1 (blocking_correctness 2 ltac:(lia) 2 [] (init 2 2) eq_refl)
           1%nat Remove [Run 1 0; Spurious 1; Run 1 0] demo_blocked);
    reflexivity.
Defined.

(** The small run continued: thread 0 inserts 9, into the cell that held 7. *)
Definition demo_more : System :=
  {| queue := {| m_items := [Some 9; Some 8]; m_head := 2; m_tail := 3 |};
     threads := [Idle; Idle];
     history := history demo_final ++
                [Invoked 0 (Insert 9); InsertReturned 0 9] |}.

Lemma counters_count_completions_witness :
  0 < 2 /\
  execs 2 demo_events (init 2 2) = Some demo_final /\
  execs 2 [Call 0 (Insert 9); Run 0 0] demo_final = Some demo_more /\
  m_tail (queue demo_final) = Z.of_nat (length (inserted (history demo_final))) /\
  m_head (queue demo_final) = Z.of_nat (length (removed (history demo_final))) /\
  m_tail (queue demo_final) <= m_tail (queue demo_more) /\
  m_head (queue demo_final) <= m_head (queue demo_more).
Proof.
  split; [lia|]. split; [reflexivity|]. split; [reflexivity|].
  apply (counters_count_completions 2 ltac:(lia) 2 demo_events demo_final
           [Call 0 (Insert 9); Run 0 0] demo_more);
    reflexivity.
Defined.

(** Capacity 1, three threads: threads 1 and 2 block in insert on the full
    queue, thread 0 removes and wakes thread 1; thread 2 is still blocked
    although a cell is free. *)
Definition demo_woken_events : list sched :=
  [Call 0 (Insert 1); Run 0 0; Call 1 (Insert 2); Run 1 0;
   Call 2 (Insert 3); Run 2 0; Call 0 Remove; Run 0 0].

Definition demo_woken : System :=
  {| queue := {| m_items := [Some 1]; m_head := 1; m_tail := 1 |};
     threads := [Idle; Woken (Insert 2); Blocked m_itemRemoved (Insert 3)];
     history := [Invoked 0 (Insert 1); InsertReturned 0 1;
                 Invoked 1 (Insert 2); Invoked 2 (Insert 3);
                 Invoked 0 Remove; RemoveReturned 0 1] |}.

Lemma no_lost_wakeup_witness :
  0 < 1 /\
  execs 1 demo_woken_events (init 1 3) = Some demo_woken /\
  threads demo_woken !! 2%nat = Some (Blocked (wait_cv (Insert 3)) (Insert 3)) /\
  ~ must_wait 1 (Insert 3) (queue demo_woken) /\
  exists w c',
    threads demo_woken !! w = Some (Woken c') /\
    wait_cv c' = wait_cv (Insert 3) /\
    forall pick, exists s',
      exec 1 (Run w pick) demo_woken = Some s' /\
      threads s' !! w = Some Idle /\
      returned_with_effect 1 w c' demo_woken s'.
Proof.
  assert (Hnw : ~ must_wait 1 (Insert 3) (queue demo_woken))
    by (vm_compute; discriminate).
  split; [lia|]. split; [reflexivity|]. split; [reflexivity|].
  split; [exact Hnw|].
  apply (no_lost_wakeup 1 ltac:(lia) 3 demo_woken_events demo_woken 2%nat
           (Insert 3) eq_refl eq_refl Hnw).
Defined.

(** Capacity 1, four threads: threads 0 and 3 block in remove, thread 1
    inserts and wakes thread 0, thread 2 blocks in insert on the full queue. *)
Definition demo_asleep_events : list sched :=
  [Call 0 Remove; Run 0 0; Call 3 Remove; Run 3 0;
   Call 1 (Insert 1); Run 1 0; Call 2 (Insert 2); Run 2 0].

Definition demo_asleep : System :=
  {| queue := {| m_items := [Some 1]; m_head := 0; m_tail := 1 |};
     threads := [Woken Remove; Idle; Blocked m_itemRemoved (Insert 2);
                 Blocked m_itemAdded Remove];
     history := [Invoked 0 Remove; Invoked 3 Remove;
                 Invoked 1 (Insert 1); InsertReturned 1 1;
                 Invoked 2 (Insert 2)] |}.

Lemma no_deadlock_witness :
  0 < 1 /\
  execs 1 demo_asleep_events (init 1 4) = Some demo_asleep /\
  threads demo_asleep !! 2%nat = Some (Blocked m_itemRemoved (Insert 2)) /\
  threads demo_asleep !! 3%nat = Some (Blocked m_itemAdded Remove) /\
  exists w c',
    threads demo_asleep !! w = Some (Woken c') /\
    forall pick, exists s',
      exec 1 (Run w pick) demo_asleep = Some s' /\
      threads s' !! w = Some Idle /\
      returned_with_effect 1 w c' demo_asleep s'.
Proof.
  split; [lia|]. split; [reflexivity|]. split; [reflexivity|].
  split; [reflexivity|].
  apply (no_deadlock 1 ltac:(lia) 4 demo_asleep_events demo_asleep 2%nat 2 3%nat);
    reflexivity.
Defined.

(** *** The scenario with capacity 3

    Thread 0 is the thread that inserts 10, 20, 30 and removes; thread 1 is
    the other thread, inserting 40 (and later 50).  At most one thread waits
    at any time, so the choice made by [notify_one] is immaterial. *)

Definition scenario_fill : list sched :=
  [Call 0 (Insert 10); Run 0 0; Call 0 (Insert 20); Run 0 0;
   Call 0 (Insert 30); Run 0 0].

Definition scenario_fourth : list sched := [Call 1 (Insert 40); Run 1 0].

Definition scenario_remove : list sched := [Call 0 Remove; Run 0 0].

Definition scenario_drain : list sched :=
  [Call 0 Remove; Run 0 0; Call 0 Remove; Run 0 0; Call 0 Remove; Run 0 0].

(** C6 (concrete scenario, [MAX = 3]): after inserting 10, 20, 30 the queue
    is full and holds [10, 20, 30]; the insert of 40 by another thread
    blocks; one remove returns 10 and unblocks it; the insert of 40 then
    completes and the queue holds [20, 30, 40]; three more removes return
    20, 30, 40 in this order and leave the queue empty; a further remove
    blocks, and returns once another insert has occurred. *)
Theorem scenario_capacity_3 :
  exists s1 s2 s3 s4 s5 s6 s7,
    execs 3 scenario_fill (init 3 2) = Some s1 /\
    contents 3 (queue s1) = [Some 10; Some 20; Some 30] /\
    canInsert 3 (queue s1) = false /\
    execs 3 scenario_fourth s1 = Some s2 /\
    threads s2 = [Idle; Blocked m_itemRemoved (Insert 40)] /\
    queue s2 = queue s1 /\ inserted (history s2) = [10; 20; 30] /\
    execs 3 scenario_remove s2 = Some s3 /\
    removed (history s3) = [10] /\
    threads s3 = [Idle; Woken (Insert 40)] /\
    execs 3 [Run 1 0] s3 = Some s4 /\
    threads s4 = [Idle; Idle] /\
    inserted (history s4) = [10; 20; 30; 40] /\
    contents 3 (queue s4) = [Some 20; Some 30; Some 40] /\
    execs 3 scenario_drain s4 = Some s5 /\
    removed (history s5) = [10; 20; 30; 40] /\
    contents 3 (queue s5) = [] /\
    canRemove (queue s5) = false /\
    execs 3 scenario_remove s5 = Some s6 /\
    threads s6 = [Blocked m_itemAdded Remove; Idle] /\
    removed (history s6) = [10; 20; 30; 40] /\
    execs 3 [Call 1 (Insert 50); Run 1 0; Run 0 0] s6 = Some s7 /\
    threads s7 = [Idle; Idle] /\
    removed (history s7) = [10; 20; 30; 40; 50].
Proof.
  do 7 eexists.
  repeat (split; [vm_compute; reflexivity|]).
  vm_compute; reflexivity.
Qed.

End Monitor.

(** ** The driver ([src/main.cpp])

    [main] checks the number of arguments, parses the two sleep limits with
    [atoi] and starts ten producer and ten consumer threads, which loop for
    ever.  The queue the workers call ([TSQueue], declared in an absent
    header) is outside this model: the outcome of each of its calls is given
    by the environment. *)

Module Driver.

Definition NUM_PRODUCERS : nat := 10.
Definition NUM_CONSUMERS : nat := 10.
Definition EXIT_FAILURE : Z := 1.

(** The lines written to standard output, one constructor per [printf]
    format of [main.cpp]. *)
Inductive line : Type :=
| ErrorExpected (received : Z)   (* Error: project1 expected 2 arguments received %d *)
| UsageProducers                 (* Usage: project1 [sleep time ... producing threads] *)
| UsageConsumers                 (*                 [sleep time ... consuming threads] *)
| CreatedProducer (thread : Z)   (* Created producer: thread %d *)
| CreatedConsumer (thread : Z)   (* Created consumer: thread %d *)
| ItemProduced (item thread : Z) (* Item %2d produced by thread %d *)
| ItemConsumed (item thread : Z). (* Item %2d consumed by thread %d *)

(** *** [atoi] of the C library *)

Definition isspace (c : ascii) : bool :=
  let n := Z.of_nat (nat_of_ascii c) in
  (n =? 32) || ((9 <=? n) && (n <=? 13)).

Definition digit_value (c : ascii) : option Z :=
  let n := Z.of_nat (nat_of_ascii c) in
  if (48 <=? n) && (n <=? 57) then Some (n - 48) else None.

Fixpoint skip_spaces (s : string) : string :=
  match s with
  | String c s' => if isspace c then skip_spaces s' else s
  | EmptyString => s
  end.

(** The value of the longest prefix of decimal digits, [acc] being the value
    read so far. *)
Fixpoint digits (acc : Z) (s : string) : Z :=
  match s with
  | String c s' =>
      match digit_value c with
      | Some d => digits (10 * acc + d) s'
      | None => acc
      end
  | EmptyString => acc
  end.

(** The number a string starts with: optional white space, an optional
    sign, then decimal digits; 0 when no digit follows. *)
Definition leading_number (s : string) : Z :=
  match skip_spaces s with
  | String "-"%char s' => - digits 0 s'
  | String "+"%char s' => digits 0 s'
  | s' => digits 0 s'
  end.

Definition LONG_MAX : Z := 2 ^ 63 - 1.
Definition LONG_MIN : Z := - 2 ^ 63.

(** [strtol(s, NULL, 10)] with a 64-bit [long]: the leading number, or
    [LONG_MAX] / [LONG_MIN] when it does not fit. *)
Definition strtol (s : string) : Z :=
  Z.max LONG_MIN (Z.min LONG_MAX (leading_number s)).

(** [atoi(s)] is [(int) strtol(s, NULL, 10)]: the result is an [int], so a
    number outside the range of [int] wraps ([atoi] of 4294967296 is 0). *)
Definition atoi (s : string) : Z := to_int (strtol s).

(** *** [main] *)

(** A thread started by [main]. *)
Inductive task : Type :=
| Producer (thread_num max_sleep_time_ms : Z)
| Consumer (thread_num max_sleep_time_ms : Z).

(** [main] either exits, or has started its threads and waits in [join] for
    threads that never finish.  This is what the code of [main] itself does:
    a worker that divides by zero brings the whole process down, possibly
    before [main] has started the later threads. *)
Inductive main_result : Type :=
| Exit (status : Z) (out : list line)
| Spawned (out : list line) (tasks : list task).

(** The values of [i] in [for (int i = 1; i <= n; ++i)]. *)
Definition from_1_to (n : nat) : list Z := Z.of_nat <$> seq 1 n.

Definition main (argv : list string) : main_result :=
  let argc := Z.of_nat (length argv) in
  if negb (argc =? 3) then
    Exit EXIT_FAILURE [ErrorExpected (argc - 1); UsageProducers; UsageConsumers]
  else
    let producers_max_sleep_time_ms := atoi (nth 1 argv EmptyString) in
    let consumers_max_sleep_time_ms := atoi (nth 2 argv EmptyString) in
    Spawned
      ((CreatedProducer <$> from_1_to NUM_PRODUCERS) ++
       ((fun i => CreatedConsumer (i + Z.of_nat NUM_PRODUCERS)) <$> from_1_to NUM_CONSUMERS))
      (((fun i => Producer i producers_max_sleep_time_ms) <$> from_1_to NUM_PRODUCERS) ++
       ((fun i => Consumer (i + Z.of_nat NUM_PRODUCERS) consumers_max_sleep_time_ms)
          <$> from_1_to NUM_CONSUMERS)).

(** *** The worker loops *)

(** What a worker does, in order. *)
Inductive action : Type :=
| Print (l : line)
| Sleep (ms : Z).

(** A worker observed for a bounded number of iterations is still looping, or
    has evaluated [std::rand() % 0]. *)
Inductive status : Type :=
| Looping
| DivisionByZero.

Section Worker.

(** The value returned by the [k]-th call of [std::rand()] in this thread. *)
Variable rand : nat -> Z.

(** The outcome of the [j]-th call of [tsqueue.insert(item, pos)] or
    [tsqueue.remove(item, pos)] in this thread: the value tested by [if], and
    the value stored in [pos].  [pos] is an [int]: [pos + 1] below is the
    addition of [int]. *)
Variable queue_call : nat -> bool * Z.

(** The first [fuel] iterations of [while (true)] in [producerTask],
    starting with iteration [j]. *)
Fixpoint producerTask (fuel j : nat) (thread_num max_sleep_time_ms : Z)
  : list action * status :=
  match fuel with
  | O => ([], Looping)
  | S fuel' =>
      let item := rand (2 * j) in
      let '(ok, pos) := queue_call j in
      let out := if ok then [Print (ItemProduced (int_add pos 1) thread_num)] else [] in
      match c_rem (rand (2 * j + 1)) max_sleep_time_ms with
      | None => (out, DivisionByZero)
      | Some ms =>
          let '(rest, st) := producerTask fuel' (S j) thread_num max_sleep_time_ms in
          (out ++ Sleep ms :: rest, st)
      end
  end.

(** The first [fuel] iterations of [while (true)] in [consumerTask]. *)
Fixpoint consumerTask (fuel j : nat) (thread_num max_sleep_time_ms : Z)
  : list action * status :=
  match fuel with
  | O => ([], Looping)
  | S fuel' =>
      let '(ok, pos) := queue_call j in
      let out := if ok then [Print (ItemConsumed (int_add pos 1) thread_num)] else [] in
      match c_rem (rand j) max_sleep_time_ms with
      | None => (out, DivisionByZero)
      | Some ms =>
          let '(rest, st) := consumerTask fuel' (S j) thread_num max_sleep_time_ms in
          (out ++ Sleep ms :: rest, st)
      end
  end.

Definition run_task (fuel : nat) (t : task) : list action * status :=
  match t with
  | Producer thread_num max => producerTask fuel 0 thread_num max
  | Consumer thread_num max => consumerTask fuel 0 thread_num max
  end.

(** The sleep durations among the actions. *)
Definition sleeps (l : list action) : list Z :=
  omap (fun a => match a with Sleep ms => Some ms | Print _ => None end) l.

Lemma c_rem_pos r max :
  0 <= r -> 0 < max -> exists ms, c_rem r max = Some ms /\ 0 <= ms < max.
Proof.
  intros Hr Hm. exists (r mod max). split.
  - apply c_rem_nonneg; lia.
  - apply Z.mod_pos_bound. lia.
Qed.

Lemma sleeps_app l1 l2 : sleeps (l1 ++ l2) = sleeps l1 ++ sleeps l2.
Proof. apply omap_app. Qed.

Lemma sleeps_out (ok : bool) (l : line) :
  sleeps (if ok then [Print l] else []) = [].
Proof. destruct ok; reflexivity. Qed.

(** With a positive limit every iteration sleeps, for a duration below the
    limit, and the loop goes on. *)
Lemma producerTask_positive fuel :
  (forall k, 0 <= rand k) ->
  forall j thread_num max, 0 < max ->
    let r := producerTask fuel j thread_num max in
    r.2 = Looping /\ length (sleeps r.1) = fuel /\
    Forall (fun ms => 0 <= ms < max) (sleeps r.1).
Proof.
  intros Hrand. induction fuel as [|fuel IH]; intros j thread_num max Hmax;
    cbn [producerTask].
  - repeat split. constructor.
  - destruct (queue_call j) as [ok pos].
    destruct (c_rem_pos (rand (2 * j + 1)) max (Hrand _) Hmax) as (ms & -> & Hms).
    specialize (IH (S j) thread_num max Hmax). cbn zeta in IH.
    destruct (producerTask fuel (S j) thread_num max) as [rest st].
    cbn [fst snd] in *. destruct IH as (-> & Hlen & Hall).
    rewrite sleeps_app, sleeps_out.
    change (sleeps (Sleep ms :: rest)) with (ms :: sleeps rest).
    split; [reflexivity|]. split; [simpl; congruence|].
    constructor; assumption.
Qed.

Lemma consumerTask_positive fuel :
  (forall k, 0 <= rand k) ->
  forall j thread_num max, 0 < max ->
    let r := consumerTask fuel j thread_num max in
    r.2 = Looping /\ length (sleeps r.1) = fuel /\
    Forall (fun ms => 0 <= ms < max) (sleeps r.1).
Proof.
  intros Hrand. induction fuel as [|fuel IH]; intros j thread_num max Hmax;
    cbn [consumerTask].
  - repeat split. constructor.
  - destruct (queue_call j) as [ok pos].
    destruct (c_rem_pos (rand j) max (Hrand _) Hmax) as (ms & -> & Hms).
    specialize (IH (S j) thread_num max Hmax). cbn zeta in IH.
    destruct (consumerTask fuel (S j) thread_num max) as [rest st].
    cbn [fst snd] in *. destruct IH as (-> & Hlen & Hall).
    rewrite sleeps_app, sleeps_out.
    change (sleeps (Sleep ms :: rest)) with (ms :: sleeps rest).
    split; [reflexivity|]. split; [simpl; congruence|].
    constructor; assumption.
Qed.

(** With limit 0 the first iteration divides by zero, whatever the queue
    call did. *)
Lemma producerTask_zero fuel j thread_num :
  let r := producerTask (S fuel) j thread_num 0 in
  r.2 = DivisionByZero /\ sleeps r.1 = [].
Proof.
  cbn [producerTask]. destruct (queue_call j) as [ok pos]. cbn.
  split; [reflexivity | apply sleeps_out].
Qed.

Lemma consumerTask_zero fuel j thread_num :
  let r := consumerTask (S fuel) j thread_num 0 in
  r.2 = DivisionByZero /\ sleeps r.1 = [].
Proof.
  simpl. destruct (queue_call j) as [ok pos]. simpl.
  split; [reflexivity | apply sleeps_out].
Qed.

End Worker.

Definition max_sleep (t : task) : Z :=
  match t with
  | Producer _ max | Consumer _ max => max
  end.

Lemma run_task_positive rand queue_call fuel t :
  (forall k, 0 <= rand k) -> 0 < max_sleep t ->
  let r := run_task rand queue_call fuel t in
  r.2 = Looping /\ length (sleeps r.1) = fuel /\
  Forall (fun ms => 0 <= ms < max_sleep t) (sleeps r.1).
Proof.
  intros Hrand Hmax. destruct t as [n max|n max]; simpl in *.
  - apply producerTask_positive; assumption.
  - apply consumerTask_positive; assumption.
Qed.

Lemma run_task_zero rand queue_call fuel t :
  max_sleep t = 0 ->
  let r := run_task rand queue_call (S fuel) t in
  r.2 = DivisionByZero /\ sleeps r.1 = [].
Proof.
  destruct t as [n max|n max]; simpl max_sleep; intros ->.
  - apply producerTask_zero.
  - apply consumerTask_zero.
Qed.

(** *** Arguments *)

(** A wrong number of arguments: the usage message, and exit. *)
Lemma main_wrong_argc argv :
  length argv <> 3%nat ->
  main argv =
    Exit EXIT_FAILURE
      [ErrorExpected (Z.of_nat (length argv) - 1); UsageProducers; UsageConsumers].
Proof.
  intros H. unfold main.
  destruct (Z.eqb_spec (Z.of_nat (length argv)) 3) as [E|_]; [lia|reflexivity].
Qed.

(** Two arguments: no check of their form; every producer gets [atoi] of
    the first and every consumer [atoi] of the second. *)
Lemma main_two_arguments prog a1 a2 :
  exists out tasks,
    main [prog; a1; a2] = Spawned out tasks /\
    (UsageProducers ∉ out) /\ (UsageConsumers ∉ out) /\
    Producer 1 (atoi a1) ∈ tasks /\ Consumer 11 (atoi a2) ∈ tasks /\
    (forall t, t ∈ tasks -> max_sleep t = atoi a1 \/ max_sleep t = atoi a2).
Proof.
  eexists _, _. split; [reflexivity|]. cbn.
  split; [|split; [|split; [|split]]].
  - intros H. repeat (apply elem_of_cons in H as [H|H]; [discriminate|]).
    inversion H.
  - intros H. repeat (apply elem_of_cons in H as [H|H]; [discriminate|]).
    inversion H.
  - apply elem_of_cons. auto.
  - do 10 (apply elem_of_cons; right). apply elem_of_cons. auto.
  - intros t H.
    repeat (apply elem_of_cons in H as [->|H]; [simpl; auto|]).
    inversion H.
Qed.

(** An argument that starts with a character that is no white space, sign
    or digit parses to 0. *)
Lemma leading_number_non_numeric c s :
  isspace c = false -> digit_value c = None ->
  c <> "-"%char -> c <> "+"%char ->
  leading_number (String c s) = 0.
Proof.
  intros Hsp Hd Hm Hp. unfold leading_number. simpl. rewrite Hsp.
  assert (Hdig : digits 0 (String c s) = 0) by (simpl; rewrite Hd; reflexivity).
  destruct c as [[] [] [] [] [] [] [] []]; try exact Hdig; congruence.
Qed.

Lemma atoi_non_numeric c s :
  isspace c = false -> digit_value c = None ->
  c <> "-"%char -> c <> "+"%char ->
  atoi (String c s) = 0.
Proof.
  intros Hsp Hd Hm Hp. unfold atoi, strtol.
  rewrite (leading_number_non_numeric c s Hsp Hd Hm Hp). reflexivity.
Qed.

(** C9 at the input [project1 abc 5] (two arguments, the first not a
    number): [main] prints no usage message and starts all twenty threads,
    the producers with sleep limit [atoi "abc" = 0]; the first iteration of
    each producer then divides by zero. *)
Theorem main_non_numeric_argument :
  exists out tasks,
    main ["project1"; "abc"; "5"]%string = Spawned out tasks /\
    (UsageProducers ∉ out) /\ (UsageConsumers ∉ out) /\
    length tasks = (NUM_PRODUCERS + NUM_CONSUMERS)%nat /\
    Producer 1 0 ∈ tasks /\
    forall rand queue_call fuel,
      (run_task rand queue_call (S fuel) (Producer 1 0)).2 = DivisionByZero.
Proof.
  destruct (main_two_arguments "project1" "abc" "5")
    as (out & tasks & E & Hu1 & Hu2 & Hp & _ & _).
  exists out, tasks.
  split; [exact E|]. split; [exact Hu1|]. split; [exact Hu2|].
  split; [vm_compute in E; injection E as <- <-; reflexivity|].
  split; [exact Hp|].
  intros rand queue_call fuel. apply run_task_zero. reflexivity.
Qed.

(** *** More on the worker loops *)

Lemma c_rem_nonzero r max :
  0 <= r -> max <> 0 ->
  exists ms, c_rem r max = Some ms /\ 0 <= ms < Z.abs max.
Proof.
  intros Hr Hm. exists (Z.rem r max). split.
  - unfold c_rem. destruct (Z.eqb_spec max 0); [contradiction | reflexivity].
  - pose proof (Z.rem_nonneg r max Hm Hr).
    pose proof (Z.rem_bound_abs r max Hm). lia.
Qed.

(** The lines among the actions. *)
Definition prints (l : list action) : list line :=
  omap (fun a => match a with Print ln => Some ln | Sleep _ => None end) l.

Lemma prints_app l1 l2 : prints (l1 ++ l2) = prints l1 ++ prints l2.
Proof. apply omap_app. Qed.

Lemma omap_seq_S {A} (f : nat -> option A) j fuel :
  omap f (seq j (S fuel)) = option_list (f j) ++ omap f (seq (S j) fuel).
Proof. cbn [seq]. csimpl. destruct (f j); reflexivity. Qed.

Section Loops.

Variable rand : nat -> Z.
Variable queue_call : nat -> bool * Z.
Hypothesis rand_nonneg : forall k, 0 <= rand k.

(** The line of iteration [k] of a worker, if it prints one. *)
Definition produced_line (thread_num : Z) (k : nat) : option line :=
  if (queue_call k).1 then Some (ItemProduced (int_add (queue_call k).2 1) thread_num)
  else None.

Definition consumed_line (thread_num : Z) (k : nat) : option line :=
  if (queue_call k).1 then Some (ItemConsumed (int_add (queue_call k).2 1) thread_num)
  else None.

Lemma producerTask_nonzero fuel :
  forall j thread_num max, max <> 0 ->
    let r := producerTask rand queue_call fuel j thread_num max in
    r.2 = Looping /\ length (sleeps r.1) = fuel /\
    Forall (fun ms => 0 <= ms < Z.abs max) (sleeps r.1) /\
    prints r.1 = omap (produced_line thread_num) (seq j fuel).
Proof.
  induction fuel as [|fuel IH]; intros j thread_num max Hmax;
    cbn [producerTask].
  - repeat split. constructor.
  - rewrite omap_seq_S.
    replace (produced_line thread_num j)
      with (if (queue_call j).1
            then Some (ItemProduced (int_add (queue_call j).2 1) thread_num) else None)
      by reflexivity.
    destruct (queue_call j) as [ok pos].
    destruct (c_rem_nonzero (rand (2 * j + 1)) max (rand_nonneg _) Hmax)
      as (ms & -> & Hms).
    specialize (IH (S j) thread_num max Hmax). cbn zeta in IH.
    destruct (producerTask rand queue_call fuel (S j) thread_num max) as [rest st].
    cbn [fst snd] in *. destruct IH as (-> & Hlen & Hall & Hpr).
    rewrite sleeps_app, sleeps_out, prints_app.
    change (sleeps (Sleep ms :: rest)) with (ms :: sleeps rest).
    change (prints (Sleep ms :: rest)) with (prints rest).
    split; [reflexivity|]. split; [simpl; congruence|].
    split; [constructor; assumption|].
    rewrite Hpr. destruct ok; reflexivity.
Qed.

Lemma consumerTask_nonzero fuel :
  forall j thread_num max, max <> 0 ->
    let r := consumerTask rand queue_call fuel j thread_num max in
    r.2 = Looping /\ length (sleeps r.1) = fuel /\
    Forall (fun ms => 0 <= ms < Z.abs max) (sleeps r.1) /\
    prints r.1 = omap (consumed_line thread_num) (seq j fuel).
Proof.
  induction fuel as [|fuel IH]; intros j thread_num max Hmax;
    cbn [consumerTask].
  - repeat split. constructor.
  - rewrite omap_seq_S.
    replace (consumed_line thread_num j)
      with (if (queue_call j).1
            then Some (ItemConsumed (int_add (queue_call j).2 1) thread_num) else None)
      by reflexivity.
    destruct (queue_call j) as [ok pos].
    destruct (c_rem_nonzero (rand j) max (rand_nonneg _) Hmax)
      as (ms & -> & Hms).
    specialize (IH (S j) thread_num max Hmax). cbn zeta in IH.
    destruct (consumerTask rand queue_call fuel (S j) thread_num max) as [rest st].
    cbn [fst snd] in *. destruct IH as (-> & Hlen & Hall & Hpr).
    rewrite sleeps_app, sleeps_out, prints_app.
    change (sleeps (Sleep ms :: rest)) with (ms :: sleeps rest).
    change (prints (Sleep ms :: rest)) with (prints rest).
    split; [reflexivity|]. split; [simpl; congruence|].
    split; [constructor; assumption|].
    rewrite Hpr. destruct ok; reflexivity.
Qed.

End Loops.

Lemma run_task_nonzero rand queue_call fuel t :
  (forall k, 0 <= rand k) -> max_sleep t <> 0 ->
  let r := run_task rand queue_call fuel t in
  r.2 = Looping /\ length (sleeps r.1) = fuel /\
  Forall (fun ms => 0 <= ms < Z.abs (max_sleep t)) (sleeps r.1).
Proof.
  intros Hrand Hmax. destruct t as [n max|n max]; simpl in *.
  - destruct (producerTask_nonzero rand queue_call Hrand fuel 0%nat n max Hmax)
      as (? & ? & ? & _). auto.
  - destruct (consumerTask_nonzero rand queue_call Hrand fuel 0%nat n max Hmax)
      as (? & ? & ? & _). auto.
Qed.

(** C10 as stated fails: the modulo is not well-defined only for
    [max_sleep_time_ms > 0].  The argument [-5] gives the limit
    [atoi "-5" = -5]; [main] starts producer 1 with it, and that worker
    keeps looping, sleeping for durations in [0, 5), although [-5 > 0] does
    not hold. *)
Lemma sleep_modulo_defined_for_negative_limit :
  atoi "-5" = -5 /\
  (exists out tasks,
     main ["project1"; "-5"; "-5"]%string = Spawned out tasks /\
     Producer 1 (-5) ∈ tasks) /\
  (forall rand queue_call, (forall k, 0 <= rand k) -> forall fuel,
     let r := run_task rand queue_call fuel (Producer 1 (-5)) in
     r.2 = Looping /\ length (sleeps r.1) = fuel /\
     Forall (fun ms => 0 <= ms < 5) (sleeps r.1)) /\
  ~ 0 < max_sleep (Producer 1 (-5)).
Proof.
  split; [reflexivity|]. split.
  - destruct (main_two_arguments "project1" "-5" "-5")
      as (out & tasks & E & _ & _ & Hp & _). eauto.
  - split; [|simpl; lia].
    intros rand queue_call Hrand fuel.
    apply (run_task_nonzero rand queue_call fuel (Producer 1 (-5)) Hrand).
    simpl. lia.
Qed.

(** C10, amended (unguarded modulo): every iteration of both worker loops
    evaluates [std::rand() % max_sleep_time_ms], whatever the queue call
    did.  It is well-defined exactly when [max_sleep_time_ms] is not 0: the
    loop then goes on for ever, each iteration sleeping for a duration in
    [0, |max_sleep_time_ms|), which is [0, max_sleep_time_ms) under the
    precondition [max_sleep_time_ms > 0]; with [max_sleep_time_ms = 0] the
    first iteration divides by zero.  [main] passes on [atoi] of its
    arguments unchecked, and [atoi] of a non-numeric argument such as [abc]
    is 0, so the division by zero is reached from [main], in the first
    thread it starts. *)
Theorem sleep_modulo_defined_iff_nonzero (rand : nat -> Z) (queue_call : nat -> bool * Z) :
  (forall k, 0 <= rand k) ->
  (forall t, (forall fuel, (run_task rand queue_call fuel t).2 = Looping) <->
             max_sleep t <> 0) /\
  (forall fuel t, max_sleep t <> 0 ->
     let r := run_task rand queue_call fuel t in
     r.2 = Looping /\ length (sleeps r.1) = fuel /\
     Forall (fun ms => 0 <= ms < Z.abs (max_sleep t)) (sleeps r.1)) /\
  (forall fuel t, 0 < max_sleep t ->
     let r := run_task rand queue_call fuel t in
     r.2 = Looping /\ length (sleeps r.1) = fuel /\
     Forall (fun ms => 0 <= ms < max_sleep t) (sleeps r.1)) /\
  (forall fuel t, max_sleep t = 0 ->
     let r := run_task rand queue_call (S fuel) t in
     r.2 = DivisionByZero /\ sleeps r.1 = []) /\
  (forall c s, isspace c = false -> digit_value c = None ->
     c <> "-"%char -> c <> "+"%char -> atoi (String c s) = 0) /\
  atoi "abc" = 0 /\
  (forall prog a1 a2, atoi a1 = 0 ->
     exists out tasks,
       main [prog; a1; a2] = Spawned out tasks /\
       head tasks = Some (Producer 1 0) /\
       forall fuel,
         (run_task rand queue_call (S fuel) (Producer 1 0)).2 = DivisionByZero).
Proof.
  intros Hrand.
  split.
  { intros t. split.
    - intros Hloop Hz.
      destruct (run_task_zero rand queue_call 0 t Hz) as [Hdiv _].
      rewrite (Hloop 1%nat) in Hdiv. discriminate.
    - intros Hnz fuel. apply run_task_nonzero; assumption. }
  split; [intros fuel t Hmax; apply run_task_nonzero; assumption|].
  split; [intros fuel t Hmax; apply run_task_positive; assumption|].
  split; [intros fuel t Hmax; apply run_task_zero; assumption|].
  split; [apply atoi_non_numeric|].
  split; [reflexivity|].
  intros prog a1 a2 H1.
  exists ((CreatedProducer <$> from_1_to NUM_PRODUCERS) ++
          ((fun i => CreatedConsumer (i + Z.of_nat NUM_PRODUCERS))
             <$> from_1_to NUM_CONSUMERS)),
         (((fun i => Producer i (atoi a1)) <$> from_1_to NUM_PRODUCERS) ++
          ((fun i => Consumer (i + Z.of_nat NUM_PRODUCERS) (atoi a2))
             <$> from_1_to NUM_CONSUMERS)).
  split; [reflexivity|]. rewrite H1.
  split; [reflexivity|].
  intros fuel. apply run_task_zero. reflexivity.
Qed.

Lemma sleep_modulo_defined_iff_nonzero_witness :
  (forall k : nat, 0 <= Z.of_nat k) /\
  max_sleep (Producer 1 (-5)) <> 0 /\
  let r := run_task (fun k => Z.of_nat k) (fun _ => (true, 0)) 3 (Producer 1 (-5)) in
  r.2 = Looping /\ length (sleeps r.1) = 3%nat /\
  Forall (fun ms => 0 <= ms < Z.abs (max_sleep (Producer 1 (-5)))) (sleeps r.1).
Proof.
  assert (Hnz : max_sleep (Producer 1 (-5)) <> 0) by (simpl; lia).
  split; [lia|]. split; [exact Hnz|].
  apply (proj1 (proj2 (sleep_modulo_defined_iff_nonzero (fun k => Z.of_nat k)
                         (fun _ => (true, 0)) Nat2Z.is_nonneg))
           3%nat (Producer 1 (-5)) Hnz).
Defined.

(** X6 (the sleep limit may be negative, not zero): a worker keeps looping
    for ever exactly when its limit is not 0; it then sleeps in every
    iteration, for a duration in [0, |limit|), so a negative limit (an
    argument such as [-5]) behaves like its absolute value. *)
Theorem run_task_defined_iff rand queue_call t :
  (forall k, 0 <= rand k) ->
  ((forall fuel, (run_task rand queue_call fuel t).2 = Looping) <->
   max_sleep t <> 0) /\
  (max_sleep t <> 0 -> forall fuel,
     let r := run_task rand queue_call fuel t in
     length (sleeps r.1) = fuel /\
     Forall (fun ms => 0 <= ms < Z.abs (max_sleep t)) (sleeps r.1)).
Proof.
  intros Hrand. split.
  - split.
    + intros Hloop Hz.
      destruct (run_task_zero rand queue_call 0 t Hz) as [Hdiv _].
      rewrite (Hloop 1%nat) in Hdiv. discriminate.
    + intros Hnz fuel. apply run_task_nonzero; assumption.
  - intros Hnz fuel. apply run_task_nonzero; assumption.
Qed.

Lemma run_task_defined_iff_witness :
  (forall k : nat, 0 <= Z.of_nat k) /\
  max_sleep (Consumer 11 (-5)) <> 0 /\
  let r := run_task (fun k => Z.of_nat k) (fun _ => (false, 0)) 4 (Consumer 11 (-5)) in
  length (sleeps r.1) = 4%nat /\
  Forall (fun ms => 0 <= ms < Z.abs (max_sleep (Consumer 11 (-5)))) (sleeps r.1).
Proof.
  assert (Hnz : max_sleep (Consumer 11 (-5)) <> 0) by (simpl; lia).
  split; [lia|]. split; [exact Hnz|].
  apply (proj2 (run_task_defined_iff (fun k => Z.of_nat k) (fun _ => (false, 0))
                  (Consumer 11 (-5)) Nat2Z.is_nonneg) Hnz 4%nat).
Defined.

(** X8 (a line per successful queue call): with a non-zero limit the lines
    a producer prints in its first [fuel] iterations are those of the
    iterations whose [tsqueue.insert] call reported success, in order, each
    with item number [pos + 1], an addition of [int] (it wraps at
    [INT_MAX]), and the producer's thread number; a failed call prints
    nothing.  The same holds for a consumer and
    [tsqueue.remove].  With limit 0 the worker still prints the line of its
    first call before it divides by zero. *)
Theorem worker_prints rand queue_call thread_num max :
  (forall k, 0 <= rand k) ->
  (max <> 0 -> forall fuel,
     prints (producerTask rand queue_call fuel 0 thread_num max).1 =
       omap (produced_line queue_call thread_num) (seq 0 fuel) /\
     prints (consumerTask rand queue_call fuel 0 thread_num max).1 =
       omap (consumed_line queue_call thread_num) (seq 0 fuel)) /\
  (forall fuel,
     prints (producerTask rand queue_call (S fuel) 0 thread_num 0).1 =
       option_list (produced_line queue_call thread_num 0) /\
     prints (consumerTask rand queue_call (S fuel) 0 thread_num 0).1 =
       option_list (consumed_line queue_call thread_num 0)).
Proof.
  intros Hrand. split.
  - intros Hmax fuel. split.
    + apply (producerTask_nonzero rand queue_call Hrand fuel 0%nat thread_num max Hmax).
    + apply (consumerTask_nonzero rand queue_call Hrand fuel 0%nat thread_num max Hmax).
  - intros fuel. unfold produced_line, consumed_line.
    cbn [producerTask consumerTask].
    destruct (queue_call 0%nat) as [[] pos]; split; reflexivity.
Qed.

Lemma worker_prints_witness :
  (forall k : nat, 0 <= Z.of_nat k) /\ 7 <> 0 /\
  prints (producerTask (fun k => Z.of_nat k) (fun j => (Nat.even j, Z.of_nat j))
            3 0 4 7).1 =
    [ItemProduced 1 4; ItemProduced 3 4].
Proof.
  split; [lia|]. split; [lia|].
  apply (proj1 (proj1 (worker_prints (fun k => Z.of_nat k)
                         (fun j => (Nat.even j, Z.of_nat j)) 4 7
                         Nat2Z.is_nonneg) ltac:(lia) 3%nat)).
Defined.

(** *** More on [main] *)

Definition thread_num (t : task) : Z :=
  match t with
  | Producer n _ | Consumer n _ => n
  end.

Definition is_producer (t : task) : bool :=
  match t with
  | Producer _ _ => true
  | Consumer _ _ => false
  end.

(** The thread number of a "Created ..." line. *)
Definition created_thread (l : line) : option Z :=
  match l with
  | CreatedProducer n | CreatedConsumer n => Some n
  | _ => None
  end.

(** X5 (what [main] does with its arguments): with a number of arguments
    other than two, [main] prints the error line with the number received
    and the two usage lines, and exits with [EXIT_FAILURE] without starting
    a thread.  With two arguments whose [atoi] values are both not 0 (so
    that no worker brings the process down), it starts twenty threads
    numbered 1 to 20 in this order, the first ten being the producers; each
    producer gets [atoi] of the first argument as its limit and each consumer
    [atoi] of the second, an [int] in both cases; it prints one "Created"
    line per thread, with the same numbers in the same order. *)
Theorem main_outcome argv :
  (length argv <> 3%nat ->
   main argv =
     Exit EXIT_FAILURE
       [ErrorExpected (Z.of_nat (length argv) - 1); UsageProducers; UsageConsumers]) /\
  (length argv = 3%nat ->
   atoi (nth 1 argv EmptyString) <> 0 ->
   atoi (nth 2 argv EmptyString) <> 0 ->
   exists out tasks,
     main argv = Spawned out tasks /\
     thread_num <$> tasks = from_1_to (NUM_PRODUCERS + NUM_CONSUMERS) /\
     is_producer <$> tasks =
       replicate NUM_PRODUCERS true ++ replicate NUM_CONSUMERS false /\
     (forall t, t ∈ tasks ->
        max_sleep t = atoi (nth (if is_producer t then 1 else 2) argv EmptyString) /\
        max_sleep t <> 0 /\ - 2 ^ 31 <= max_sleep t < 2 ^ 31) /\
     omap created_thread out = thread_num <$> tasks /\
     length out = length tasks /\
     (forall i l, out !! i = Some l ->
        l = CreatedProducer (Z.of_nat i + 1) \/
        l = CreatedConsumer (Z.of_nat i + 1))).
Proof.
  split; [apply main_wrong_argc|].
  intros Hlen H1 H2.
  destruct argv as [|prog [|a1 [|a2 [|? ?]]]]; try discriminate.
  cbn [nth] in H1, H2.
  exists ((CreatedProducer <$> from_1_to NUM_PRODUCERS) ++
          ((fun i => CreatedConsumer (i + Z.of_nat NUM_PRODUCERS))
             <$> from_1_to NUM_CONSUMERS)),
         (((fun i => Producer i (atoi a1)) <$> from_1_to NUM_PRODUCERS) ++
          ((fun i => Consumer (i + Z.of_nat NUM_PRODUCERS) (atoi a2))
             <$> from_1_to NUM_CONSUMERS)).
  split; [reflexivity|].
  split; [reflexivity|]. split; [reflexivity|].
  split; [|split; [reflexivity|split; [reflexivity|]]].
  - intros t H.
    pose proof (to_int_range (strtol a1)). pose proof (to_int_range (strtol a2)).
    change (t ∈ [Producer 1 (atoi a1); Producer 2 (atoi a1); Producer 3 (atoi a1);
                 Producer 4 (atoi a1); Producer 5 (atoi a1); Producer 6 (atoi a1);
                 Producer 7 (atoi a1); Producer 8 (atoi a1); Producer 9 (atoi a1);
                 Producer 10 (atoi a1); Consumer 11 (atoi a2); Consumer 12 (atoi a2);
                 Consumer 13 (atoi a2); Consumer 14 (atoi a2); Consumer 15 (atoi a2);
                 Consumer 16 (atoi a2); Consumer 17 (atoi a2); Consumer 18 (atoi a2);
                 Consumer 19 (atoi a2); Consumer 20 (atoi a2)]) in H.
    repeat (apply elem_of_cons in H as [->|H];
            [cbn [max_sleep is_producer nth]; unfold atoi at 2 3; auto|]).
    inversion H.
  - intros i l H.
    do 20 (destruct i as [|i]; [injection H as <-; auto|]).
    discriminate.
Qed.

(** Two numeric arguments, the second negative. *)
Lemma main_outcome_witness :
  length ["project1"; "250"; "-5"]%string = 3%nat /\
  atoi "250" = 250 /\ atoi "-5" = -5 /\
  exists out tasks,
    main ["project1"; "250"; "-5"]%string = Spawned out tasks /\
    thread_num <$> tasks = from_1_to 20 /\
    omap created_thread out = thread_num <$> tasks.
Proof.
  split; [reflexivity|]. split; [reflexivity|]. split; [reflexivity|].
  destruct (proj2 (main_outcome ["project1"; "250"; "-5"]%string) eq_refl)
    as (out & tasks & E & Hn & _ & _ & Hc & _).
  - vm_compute. discriminate.
  - vm_compute. discriminate.
  - exists out, tasks. auto.
Defined.

(** X7 ([main] and its workers): for two arguments, the threads that the
    loops of [main] start all keep looping exactly when [atoi] of both
    arguments, an [int], is not 0.  Otherwise the first thread started with
    limit 0 divides by zero in its first iteration: producer 1, the first
    thread of all, when [atoi] of the first argument is 0; consumer 11 when
    only [atoi] of the second is. *)
Theorem main_workers_safe_iff rand queue_call prog a1 a2 :
  (forall k, 0 <= rand k) ->
  exists out tasks,
    main [prog; a1; a2] = Spawned out tasks /\
    ((forall t fuel, t ∈ tasks ->
        (run_task rand queue_call fuel t).2 = Looping) <->
     atoi a1 <> 0 /\ atoi a2 <> 0) /\
    (forall t fuel, t ∈ tasks ->
       max_sleep t = 0 ->
       (run_task rand queue_call (S fuel) t).2 = DivisionByZero) /\
    (atoi a1 = 0 -> head tasks = Some (Producer 1 0)) /\
    (atoi a1 <> 0 -> atoi a2 = 0 ->
     Consumer 11 0 ∈ tasks /\
     forall t, t ∈ tasks -> max_sleep t = 0 -> is_producer t = false).
Proof.
  intros Hrand.
  destruct (main_two_arguments prog a1 a2)
    as (out & tasks & E & _ & _ & Hp & Hc & Hall).
  exists out, tasks. split; [exact E|].
  split; [|split; [|split]].
  - split.
    + intros Hloop. split; intros Hz.
      * destruct (run_task_zero rand queue_call 0 (Producer 1 (atoi a1)) Hz)
          as [Hdiv _].
        rewrite (Hloop _ 1%nat Hp) in Hdiv. discriminate.
      * destruct (run_task_zero rand queue_call 0 (Consumer 11 (atoi a2)) Hz)
          as [Hdiv _].
        rewrite (Hloop _ 1%nat Hc) in Hdiv. discriminate.
    + intros [H1 H2] t fuel Ht.
      apply run_task_nonzero; [exact Hrand|].
      destruct (Hall t Ht) as [-> | ->]; assumption.
  - intros t fuel _ Hz. apply run_task_zero, Hz.
  - intros Hz. injection E as <- <-. rewrite Hz. reflexivity.
  - intros Hnz Hz. split; [rewrite Hz in Hc; exact Hc|].
    intros t Ht Ht0. injection E as <- <-.
    change (t ∈ [Producer 1 (atoi a1); Producer 2 (atoi a1); Producer 3 (atoi a1);
                 Producer 4 (atoi a1); Producer 5 (atoi a1); Producer 6 (atoi a1);
                 Producer 7 (atoi a1); Producer 8 (atoi a1); Producer 9 (atoi a1);
                 Producer 10 (atoi a1); Consumer 11 (atoi a2); Consumer 12 (atoi a2);
                 Consumer 13 (atoi a2); Consumer 14 (atoi a2); Consumer 15 (atoi a2);
                 Consumer 16 (atoi a2); Consumer 17 (atoi a2); Consumer 18 (atoi a2);
                 Consumer 19 (atoi a2); Consumer 20 (atoi a2)]) in Ht.
    repeat (apply elem_of_cons in Ht as [->|Ht];
            [first [reflexivity | simpl in Ht0; contradiction]|]).
    inversion Ht.
Qed.

Lemma main_workers_safe_iff_witness :
  (forall k : nat, 0 <= Z.of_nat k) /\
  exists out tasks,
    main ["project1"; "250"; "-5"]%string = Spawned out tasks /\
    atoi "250" <> 0 /\ atoi "-5" <> 0 /\
    forall t fuel, t ∈ tasks ->
      (run_task (fun k => Z.of_nat k) (fun _ => (true, 0)) fuel t).2 = Looping.
Proof.
  split; [lia|].
  destruct (main_workers_safe_iff (fun k => Z.of_nat k) (fun _ => (true, 0))
              "project1" "250" "-5" Nat2Z.is_nonneg)
    as (out & tasks & E & Hiff & _).
  exists out, tasks. split; [exact E|].
  assert (H1 : atoi "250" <> 0) by (vm_compute; discriminate).
  assert (H2 : atoi "-5" <> 0) by (vm_compute; discriminate).
  split; [exact H1|]. split; [exact H2|].
  apply (proj2 Hiff). split; assumption.
Defined.

End Driver.
